(** * SRT to clean text: the transformer of [lambda/text-processor/lambda_function.py]

    A shallow embedding of [parse_srt_to_text], [clean_subtitle_text] and
    [add_paragraph_breaks], together with the part of Python's [str] and [re]
    libraries those functions call, and the properties of the transformer.

    A Python [str] is a sequence of Unicode code points: a character is
    modelled as its code point (an [N]) and a string as a list of
    characters.  [len] is [length]. *)

From Stdlib Require Import String Ascii.
From Stdlib Require Import List NArith ZArith Bool Arith Lia.
From Stdlib Require Import DecimalString.
Import ListNotations.

(** ** Characters and strings *)

Definition char := N.
Definition str := list char.

(** A string literal of the source, as the list of its code points. *)
Definition py (s : string) : str := map N_of_ascii (list_ascii_of_string s).

(** One character of the source, as its code point. *)
Definition ch (a : ascii) : char := N_of_ascii a.

Definition NL : char := 10%N.
Definition SP : char := 32%N.

(** [Py_UNICODE_ISSPACE]: the characters [str.strip], [str.split] and the
    regular-expression class [\s] treat as whitespace. *)
Definition isspace (c : char) : bool :=
  ((9 <=? c) && (c <=? 13) || (28 <=? c) && (c <=? 32)
   || (c =? 133) || (c =? 160) || (c =? 5760)
   || (8192 <=? c) && (c <=? 8202)
   || (c =? 8232) || (c =? 8233) || (c =? 8239) || (c =? 8287) || (c =? 12288))%N.

Definition is_ascii_digit (c : char) : bool := ((48 <=? c) && (c <=? 57))%N.

Definition is_char (a c : char) : bool := (c =? a)%N.
Definition not_char (a c : char) : bool := negb (c =? a)%N.

(** ** [str] methods *)

(** [s.lstrip()], [s.rstrip()] and [s.strip()]. *)
Fixpoint lstrip (s : str) : str :=
  match s with
  | c :: s' => if isspace c then lstrip s' else s
  | [] => []
  end.

Definition rstrip (s : str) : str := rev (lstrip (rev s)).

Definition strip (s : str) : str := rstrip (lstrip s).

(** [sep.join(parts)]. *)
Fixpoint join (sep : str) (parts : list str) : str :=
  match parts with
  | [] => []
  | [x] => x
  | x :: rest => x ++ sep ++ join sep rest
  end.

(** [s.split(sep)] for a one-character separator: the pieces between the
    separators, empty ones included; the empty string gives one empty piece. *)
Fixpoint split_on (sep : char) (s : str) : list str :=
  match s with
  | [] => [[]]
  | c :: s' =>
      if (c =? sep)%N then [] :: split_on sep s'
      else match split_on sep s' with
           | piece :: rest => (c :: piece) :: rest
           | [] => [[c]]
           end
  end.

(** [s.split()]: the maximal runs of non-whitespace characters. *)
Fixpoint split_ws (s : str) : list str :=
  match s with
  | [] => []
  | c :: s' =>
      if isspace c then split_ws s'
      else match s' with
           | [] => [[c]]
           | d :: _ =>
               if isspace d then [c] :: split_ws s'
               else match split_ws s' with
                    | w :: ws => (c :: w) :: ws
                    | [] => [[c]]
                    end
           end
  end.

(** [s.startswith(prefix)] and [s.endswith(suffix)]; [endswith_any] is
    [endswith] with a tuple of suffixes. *)
Fixpoint startswith (s prefix : str) {struct prefix} : bool :=
  match prefix, s with
  | [], _ => true
  | p :: prefix', c :: s' => (c =? p)%N && startswith s' prefix'
  | _ :: _, [] => false
  end.

Definition endswith (s suffix : str) : bool := startswith (rev s) (rev suffix).

Definition endswith_any (s : str) (suffixes : list str) : bool :=
  existsb (endswith s) suffixes.

(** ** The regular expressions of the program

    Every pattern of the program is a sequence of character classes, each
    taken once or under [+], [*] or the lazy [*?], possibly after the anchor
    [^].  [re_match] is the backtracking matcher of [re] on such patterns:
    a greedy repetition takes as many characters as it can and gives them
    back one at a time, a lazy one takes as few as it can. *)

Inductive quant : Type :=
| Once
| Plus
| Star
| LazyStar.

Inductive node : Type :=
| Bos                                  (* [^] without MULTILINE *)
| Cls (f : char -> bool) (q : quant).  (* a class with its quantifier *)

Definition regex := list node.

(** A continuation receives whether the position is the start of the string,
    and the rest of the string; it answers with the number of characters the
    rest of the pattern consumes, when it matches. *)
Definition cont := bool -> str -> option nat.

Definition one (f : char -> bool) (k : cont) : cont :=
  fun _ s =>
    match s with
    | c :: s' => if f c then option_map S (k false s') else None
    | [] => None
    end.

Fixpoint greedy (f : char -> bool) (k : cont) (bos : bool) (s : str) : option nat :=
  match s with
  | c :: s' =>
      if f c then
        match greedy f k false s' with
        | Some n => Some (S n)
        | None => k bos s
        end
      else k bos s
  | [] => k bos s
  end.

Fixpoint lazy (f : char -> bool) (k : cont) (bos : bool) (s : str) : option nat :=
  match k bos s with
  | Some n => Some n
  | None =>
      match s with
      | c :: s' => if f c then option_map S (lazy f k false s') else None
      | [] => None
      end
  end.

Fixpoint re_match (p : regex) : cont :=
  match p with
  | [] => fun _ _ => Some 0
  | Bos :: p' => fun bos s => if bos then re_match p' bos s else None
  | Cls f Once :: p' => one f (re_match p')
  | Cls f Plus :: p' => one f (greedy f (re_match p'))
  | Cls f Star :: p' => greedy f (re_match p')
  | Cls f LazyStar :: p' => lazy f (re_match p')
  end.

(** The scan shared by [re.sub] and [re.split]: the string cut from left to
    right into the characters outside every match and the matches, each match
    being the leftmost one that starts at or after the end of the previous.
    After an empty match the next character is kept and the scan moves on
    (none of the patterns of this program matches the empty string). *)
Inductive piece : Type :=
| Lit (c : char)
| Hit (m : str).

Fixpoint scan_from (fuel : nat) (p : regex) (bos : bool) (s : str) : list piece :=
  match fuel with
  | O => []
  | S fuel' =>
      match s with
      | [] => match re_match p bos [] with
              | Some _ => [Hit []]
              | None => []
              end
      | c :: s' =>
          match re_match p bos s with
          | Some (S n) => Hit (firstn (S n) s) :: scan_from fuel' p false (skipn (S n) s)
          | Some O => Hit [] :: Lit c :: scan_from fuel' p false s'
          | None => Lit c :: scan_from fuel' p false s'
          end
      end
  end.

Definition scan (p : regex) (s : str) : list piece :=
  scan_from (S (length s)) p true s.

(** [re.sub(p, repl, s)]. *)
Definition put (repl : str) (x : piece) : str :=
  match x with
  | Lit c => [c]
  | Hit _ => repl
  end.

Definition re_sub (p : regex) (repl : str) (s : str) : str :=
  flat_map (put repl) (scan p s).

(** [re.split(p, s)]: the pieces of [s] between the matches. *)
Fixpoint pieces_between (l : list piece) : list str :=
  match l with
  | [] => [[]]
  | Lit c :: l' =>
      match pieces_between l' with
      | x :: rest => (c :: x) :: rest
      | [] => [[c]]
      end
  | Hit _ :: l' => [] :: pieces_between l'
  end.

Definition re_split (p : regex) (s : str) : list str := pieces_between (scan p s).



(** ** The patterns of the program *)

(** A literal run of characters inside a pattern. *)
Definition lit (s : string) : regex := map (fun c => Cls (is_char c) Once) (py s).

(** [.] without DOTALL: any character but the newline. *)
Definition dot (c : char) : bool := not_char NL c.

(** [\n\s*\n] *)
Definition blank_line : regex :=
  [Cls (is_char NL) Once; Cls isspace Star; Cls (is_char NL) Once].

(** [\s+] *)
Definition ws_run : regex := [Cls isspace Plus].

(** An opener, one or more characters that are not the closer, the closer:
    [<[^>]+>] and [\{[^}]+\}]. *)
Definition group_plus (o c : char) : regex :=
  [Cls (is_char o) Once; Cls (not_char c) Plus; Cls (is_char c) Once].

(** An opener, as few characters as possible, the closer: [\[.*?\]] and
    [\(.*?\)]. *)
Definition group_lazy (o c : char) : regex :=
  [Cls (is_char o) Once; Cls dot LazyStar; Cls (is_char c) Once].

Definition tag : regex := group_plus (ch "<") (ch ">").
Definition brace : regex := group_plus (ch "{") (ch "}").
Definition square : regex := group_lazy (ch "[") (ch "]").
Definition paren : regex := group_lazy (ch "(") (ch ")").

(** ** [add_paragraph_breaks] *)

(** The variables of the loop over the words. *)
Record reflow : Type := {
  paragraphs : list str;
  current_paragraph : list str;
  current_length : Z
}.

Definition reflow_start : reflow :=
  {| paragraphs := []; current_paragraph := []; current_length := 0 |}.

(** The suffixes that end a sentence. *)
Definition terminals : list str := [py "."; py "!"; py "?"].

(** One turn of the loop. *)
Definition reflow_word (chars_per_paragraph : Z) (st : reflow) (word : str) : reflow :=
  let current := current_paragraph st ++ [word] in
  let len := (current_length st + (Z.of_nat (length word) + 1))%Z in
  if (chars_per_paragraph <=? len)%Z && endswith_any word terminals then
    {| paragraphs := paragraphs st ++ [join [SP] current];
       current_paragraph := [];
       current_length := 0 |}
  else
    {| paragraphs := paragraphs st;
       current_paragraph := current;
       current_length := len |}.

(** The list [paragraphs] when the function reaches its last line. *)
Definition reflow_paragraphs (text : str) (chars_per_paragraph : Z) : list str :=
  let st := fold_left (reflow_word chars_per_paragraph) (split_ws text) reflow_start in
  match current_paragraph st with
  | [] => paragraphs st
  | _ :: _ => paragraphs st ++ [join [SP] (current_paragraph st)]
  end.

Definition add_paragraph_breaks (text : str) (chars_per_paragraph : Z) : str :=
  if (Z.of_nat (length text) <=? chars_per_paragraph)%Z then text
  else join [NL; NL] (reflow_paragraphs text chars_per_paragraph).

Section Transformer.

(** [\d] is the decimal digits of the interpreter's Unicode tables.  On
    ASCII these are 0 to 9 in every version; the table of the other code
    points is kept a parameter. *)
Variable unicode_decimal : char -> bool.

Definition isdecimal (c : char) : bool :=
  if (c <? 128)%N then is_ascii_digit c else unicode_decimal c.

(** [^Speaker \d+:\s*] *)
Definition speaker_label : regex :=
  Bos :: lit "Speaker " ++ [Cls isdecimal Plus; Cls (is_char (ch ":")) Once; Cls isspace Star].

(** ** [clean_subtitle_text] *)

Definition clean_subtitle_text (text : str) : str :=
  let text := re_sub tag [] text in
  let text := re_sub brace [] text in
  let text := re_sub speaker_label [] text in
  let text := re_sub square [] text in
  let text := re_sub paren [] text in
  let text := strip (re_sub ws_run [SP] text) in
  text.

(** ** [parse_srt_to_text] *)

(** The body of the loop over the blocks: [text_lines] after the block. *)
Definition parse_block (text_lines : list str) (block : str) : list str :=
  match strip block with
  | [] => text_lines
  | _ :: _ =>
      let lines := split_on NL (strip block) in
      if 3 <=? length lines then
        let subtitle_text := join [SP] (skipn 2 lines) in
        let subtitle_text := clean_subtitle_text subtitle_text in
        match subtitle_text with
        | [] => text_lines
        | _ :: _ => text_lines ++ [subtitle_text]
        end
      else text_lines
  end.

Definition parse_srt_to_text (srt_content : str) : str :=
  let blocks := re_split blank_line (strip srt_content) in
  let text_lines := fold_left parse_block blocks [] in
  let clean_text := join [SP] text_lines in
  let clean_text := strip (re_sub ws_run [SP] clean_text) in
  let clean_text := add_paragraph_breaks clean_text 500 in
  clean_text.

End Transformer.

(** * The handler and its S3 calls

    [lambda_handler], [download_srt] and [upload_text] run in a small monad
    of their own: the state is what S3 holds together with the records
    handed to [logger]; a computation ends with a value or with the
    exception it raises.  The S3 client, the UTF-8 codec and [str(e)] on the
    client's exceptions belong to the environment and are parameters. *)

Inductive log_level : Type :=
| INFO
| ERROR.

(** One call of [logger.info] or [logger.error]. *)
Record log_record : Type := {
  level : log_level;
  text : str;
  exc_info : bool
}.

(** The keyword arguments of [s3_client.put_object]. *)
Record put_request (bytes : Type) : Type := {
  Bucket : str;
  Key : str;
  Body : bytes;
  ContentType : str;
  ServerSideEncryption : str;
  Metadata : list (str * str)
}.

(** The dict that [lambda_handler] returns. *)
Record response : Type := {
  statusCode : Z;
  txtKey : str;
  textLength : nat;
  message : str
}.

(** The environment: [bytes] are object bodies, [fault] the exceptions of
    the client and of the codec, [world] what S3 holds. *)
Record service (bytes fault world : Type) : Type := {
  (* s3_client.get_object(Bucket=..., Key=...)['Body'].read() *)
  get_object : world -> str -> str -> fault + bytes;
  (* s3_client.put_object(...): the exception raised, if any, and S3 after *)
  put_object : world -> put_request bytes -> option fault * world;
  (* bytes.decode('utf-8') and str.encode('utf-8') *)
  decode : bytes -> fault + str;
  encode : str -> fault + bytes;
  (* isinstance(e, s3_client.exceptions.NoSuchKey) and str(e) *)
  is_no_such_key : fault -> bool;
  fault_str : fault -> str
}.

Arguments Build_put_request {bytes}.
Arguments Bucket {bytes}.
Arguments Key {bytes}.
Arguments Body {bytes}.
Arguments ContentType {bytes}.
Arguments ServerSideEncryption {bytes}.
Arguments Metadata {bytes}.
Arguments get_object {bytes fault world}.
Arguments put_object {bytes fault world}.
Arguments decode {bytes fault world}.
Arguments encode {bytes fault world}.
Arguments is_no_such_key {bytes fault world}.
Arguments fault_str {bytes fault world}.

(** [str(n)] for a length. *)
Definition str_of_nat (n : nat) : str := py (NilZero.string_of_uint (Nat.to_uint n)).

(** The exceptions that reach the handler. *)
Inductive exn (fault : Type) : Type :=
| KeyError (key : str)
| Fault (f : fault).

Arguments KeyError {fault}.
Arguments Fault {fault}.

(** The event: a dict from strings to strings, read only. *)
Definition event_t : Type := str -> option str.

Section Handler.

Variables bytes fault world : Type.
Variable s3_client : service bytes fault world.
Variable unicode_decimal : char -> bool.

Definition state : Type := world * list log_record.

Definition M (A : Type) : Type := state -> (exn fault + A) * state.

Definition ret {A : Type} (a : A) : M A := fun st => (inr a, st).

Definition bind {A B : Type} (m : M A) (f : A -> M B) : M B :=
  fun st =>
    match m st with
    | (inr a, st') => f a st'
    | (inl e, st') => (inl e, st')
    end.

Definition raise {A : Type} (e : exn fault) : M A := fun st => (inl e, st).

(** [try: body except ...: handler] *)
Definition try_except {A : Type} (body : M A) (handler : exn fault -> M A) : M A :=
  fun st =>
    match body st with
    | (inr a, st') => (inr a, st')
    | (inl e, st') => handler e st'
    end.

Local Notation "x <- m ;; f" := (bind m (fun x => f))
  (at level 61, m at next level, right associativity).
Local Notation "m ;;; f" := (bind m (fun _ => f))
  (at level 61, right associativity).

Definition logger_info (msg : str) : M unit :=
  fun st => (inr tt, (fst st, snd st ++ [{| level := INFO; text := msg; exc_info := false |}])).

Definition logger_error (msg : str) (with_exc_info : bool) : M unit :=
  fun st =>
    (inr tt, (fst st, snd st ++ [{| level := ERROR; text := msg; exc_info := with_exc_info |}])).

(** [str(e)]: for a [KeyError] the key between quotes (the keys of this
    program hold no quote), for the rest what the environment says. *)
Definition exn_str (e : exn fault) : str :=
  match e with
  | KeyError key => py "'" ++ key ++ py "'"
  | Fault f => fault_str s3_client f
  end.

(** [event[key]] *)
Definition getitem (event : event_t) (key : string) : M str :=
  fun st =>
    match event (py key) with
    | Some v => (inr v, st)
    | None => (inl (KeyError (py key)), st)
    end.

(** The two client calls and the codec, in the monad. *)
Definition s3_get_object (bucket key : str) : M bytes :=
  fun st =>
    match get_object s3_client (fst st) bucket key with
    | inr body => (inr body, st)
    | inl f => (inl (Fault f), st)
    end.

Definition s3_put_object (req : put_request bytes) : M unit :=
  fun st =>
    match put_object s3_client (fst st) req with
    | (None, w) => (inr tt, (w, snd st))
    | (Some f, w) => (inl (Fault f), (w, snd st))
    end.

Definition decode_utf8 (b : bytes) : M str :=
  fun st =>
    match decode s3_client b with
    | inr s => (inr s, st)
    | inl f => (inl (Fault f), st)
    end.

Definition encode_utf8 (s : str) : M bytes :=
  fun st =>
    match encode s3_client s with
    | inr b => (inr b, st)
    | inl f => (inl (Fault f), st)
    end.

(** ** [download_srt] *)

Definition download_srt (bucket key : str) : M str :=
  try_except
    (body <- s3_get_object bucket key ;;
     content <- decode_utf8 body ;;
     logger_info (py "Downloaded " ++ str_of_nat (length content)
                  ++ py " bytes from s3://" ++ bucket ++ py "/" ++ key) ;;;
     ret content)
    (fun e =>
       match e with
       | Fault f =>
           if is_no_such_key s3_client f then
             logger_error (py "SRT file not found: s3://" ++ bucket ++ py "/" ++ key) false ;;;
             raise e
           else
             logger_error (py "Failed to download SRT: " ++ exn_str e) false ;;;
             raise e
       | KeyError _ =>
           logger_error (py "Failed to download SRT: " ++ exn_str e) false ;;;
           raise e
       end).

(** ** [upload_text] *)

Definition upload_text (bucket key content : str) : M unit :=
  try_except
    (body <- encode_utf8 content ;;
     s3_put_object {| Bucket := bucket;
                      Key := key;
                      Body := body;
                      ContentType := py "text/plain; charset=utf-8";
                      ServerSideEncryption := py "AES256";
                      Metadata := [(py "source", py "aws-transcribe-pipeline");
                                   (py "format", py "clean-text")] |} ;;;
     logger_info (py "Uploaded clean text to s3://" ++ bucket ++ py "/" ++ key))
    (fun e =>
       logger_error (py "Failed to upload text: " ++ exn_str e) false ;;;
       raise e).

(** ** [lambda_handler] *)

Definition lambda_handler (context_t : Type) (event : event_t) (context : context_t)
  : M response :=
  try_except
    (bucket <- getitem event "bucket" ;;
     srt_key <- getitem event "srtKey" ;;
     base_filename <- getitem event "baseFilename" ;;
     logger_info (py "Processing SRT file: s3://" ++ bucket ++ py "/" ++ srt_key) ;;;
     srt_content <- download_srt bucket srt_key ;;
     let clean_text := parse_srt_to_text unicode_decimal srt_content in
     let txt_key := py "amazon_transcribe/ine/text/" ++ base_filename ++ py ".txt" in
     upload_text bucket txt_key clean_text ;;;
     logger_info (py "Successfully created clean text: s3://" ++ bucket ++ py "/" ++ txt_key) ;;;
     logger_info (py "Text length: " ++ str_of_nat (length clean_text) ++ py " characters") ;;;
     ret {| statusCode := 200;
            txtKey := txt_key;
            textLength := length clean_text;
            message := py "Successfully processed SRT to clean text" |})
    (fun e =>
       logger_error (py "Error processing SRT file: " ++ exn_str e) true ;;;
       raise e).

End Handler.

Arguments lambda_handler {bytes fault world} s3_client unicode_decimal {context_t} event context.
Arguments download_srt {bytes fault world} s3_client bucket key.
Arguments upload_text {bytes fault world} s3_client bucket key content.
Arguments exn_str {bytes fault world} s3_client e.

(** * The vocabulary of the properties *)

(** A character that is not whitespace. *)
Definition nonspace (c : char) : bool := negb (isspace c).

(** A word: a non-empty string without whitespace. *)
Definition is_word (w : str) : bool :=
  match w with
  | [] => false
  | _ :: _ => forallb nonspace w
  end.

(** A paragraph: a non-empty list of words. *)
Definition is_paragraph (ps : list str) : Prop :=
  ps <> [] /\ Forall (fun w => is_word w = true) ps.

(** The counter of the loop after the words [ws]: each word and one space. *)
Fixpoint weight (ws : list str) : Z :=
  match ws with
  | [] => 0
  | w :: ws' => Z.of_nat (length w) + 1 + weight ws'
  end.

(** The condition under which the loop closes the paragraph [ws]: the counter
    has reached the threshold and the last word ends a sentence. *)
Definition closes (thr : Z) (ws : list str) : bool :=
  (thr <=? weight ws)%Z && endswith_any (last ws []) terminals.

(** The loop run from a buffer [cur]: the paragraphs it closes, as lists of
    words, and the buffer left after the last word. *)
Fixpoint chunk (thr : Z) (cur : list str) (ws : list str) : list (list str) * list str :=
  match ws with
  | [] => ([], cur)
  | w :: ws' =>
      if closes thr (cur ++ [w]) then
        let (ps, r) := chunk thr [] ws' in ((cur ++ [w]) :: ps, r)
      else chunk thr (cur ++ [w]) ws'
  end.

(** The paragraphs of a list of words, the last buffer included. *)
Definition groups (thr : Z) (ws : list str) : list (list str) :=
  let (ps, r) := chunk thr [] ws in
  match r with
  | [] => ps
  | _ :: _ => ps ++ [r]
  end.

(** The paragraph [ps] was not closed late: no shorter non-empty run of its
    first words meets the closing condition. *)
Definition closed_first (thr : Z) (ps : list str) : Prop :=
  forall pre suf, ps = pre ++ suf -> pre <> [] -> suf <> [] -> closes thr pre = false.

(** A buffer still open: no non-empty run of its first words, itself
    included, meets the closing condition. *)
Definition still_open (thr : Z) (cur : list str) : Prop :=
  forall pre suf, cur = pre ++ suf -> pre <> [] -> closes thr pre = false.

(** The scan from a position that is the start of the string or not. *)
Definition scan_at (p : regex) (bos : bool) (s : str) : list piece :=
  scan_from (S (length s)) p bos s.

(** The text of a piece; the pieces of a scan are the string, cut. *)
Definition piece_text (x : piece) : str :=
  match x with
  | Lit c => [c]
  | Hit m => m
  end.


(** No two whitespace characters side by side. *)
Definition no_ws_pair (s : str) : Prop :=
  forall a c1 c2 b, s = a ++ c1 :: c2 :: b -> isspace c1 = true -> isspace c2 = true -> False.

(** Two whitespace characters side by side are two newlines, and what
    follows them is not whitespace: the runs of whitespace are single
    characters, or exactly two newlines. *)
Definition well_spaced (s : str) : Prop :=
  forall a c1 c2 b, s = a ++ c1 :: c2 :: b -> isspace c1 = true -> isspace c2 = true ->
    c1 = NL /\ c2 = NL /\ forall c3 b', b = c3 :: b' -> isspace c3 = false.

Definition no_double_space (s : str) : Prop :=
  forall a b, s <> a ++ SP :: SP :: b.

Definition no_triple_newline (s : str) : Prop :=
  forall a b, s <> a ++ NL :: NL :: NL :: b.

(** [no_ws_pair], decided. *)
Fixpoint single_spaced (s : str) : bool :=
  match s with
  | c1 :: s1 =>
      match s1 with
      | c2 :: _ => negb (isspace c1 && isspace c2) && single_spaced s1
      | [] => true
      end
  | [] => true
  end.

(** [well_spaced], decided. *)
Fixpoint tidy (s : str) : bool :=
  match s with
  | c1 :: s1 =>
      match s1 with
      | c2 :: s2 =>
          (if isspace c1 && isspace c2
           then (c1 =? NL)%N && (c2 =? NL)%N
                && match s2 with c3 :: _ => negb (isspace c3) | [] => true end
           else true)
          && tidy s1
      | [] => true
      end
  | [] => true
  end.

(** The substitution from a position that is the start of the string or not. *)
Definition sub_at (p : regex) (repl : str) (bos : bool) (s : str) : str :=
  flat_map (put repl) (scan_at p bos s).

(** The rest of the pattern after the lazy repetition: the closer. *)
Definition closer (c : char) : cont := one (is_char c) (fun _ _ => Some 0).

(** How [\[.*?\]] cuts a string: a character is kept when it is not the
    opener, or when no closer follows it on its line; otherwise the group
    from the opener to the first closer after it is one match, and the cut
    goes on after that closer. *)
Inductive lazy_cut (o c : char) : str -> list piece -> Prop :=
| cut_end : lazy_cut o c [] []
| cut_keep x t ps :
    x <> o \/ (forall body rest, t = body ++ c :: rest -> In NL body) ->
    lazy_cut o c t ps ->
    lazy_cut o c (x :: t) (Lit x :: ps)
| cut_group body rest ps :
    ~ In c body -> ~ In NL body ->
    lazy_cut o c rest ps ->
    lazy_cut o c (o :: body ++ c :: rest) (Hit (o :: body ++ [c]) :: ps).

(** A table of decimal digits with none outside ASCII, for the examples. *)
Definition ascii_only : char -> bool := fun _ => false.

(** A document whose text is longer than the default threshold: sixty
    sentences of ten characters in one caption block. *)
Definition long_doc : str :=
  py "1" ++ NL :: py "00:00:00,000 --> 00:01:00,000" ++ NL
  :: concat (repeat (py "aaaaaaaa. ") 60).

(** The document of the two-line block: an index line and a time-range
    line, no text line. *)
Definition two_line_doc : str :=
  py "1" ++ NL :: py "00:00:00,000 --> 00:00:01,000" ++ [NL].

(** A line of a caption block before the text: no newline in it, and a
    first character that is not whitespace. *)
Definition header_line (l : str) : Prop :=
  ~ In NL l /\ exists c l', l = c :: l' /\ isspace c = false.

(** A text line: a header line that also ends with a character that is not
    whitespace. *)
Definition text_line (l : str) : Prop :=
  header_line l /\ exists l' d, l = l' ++ [d] /\ isspace d = false.

(** A caption block: the index line, the time-range line, one text line. *)
Definition caption (index time text : str) : str :=
  index ++ NL :: time ++ NL :: text.

(** A document of three caption blocks, blank lines between them and a
    newline at the end. *)
Definition three_captions (b1 b2 b3 : str) : str :=
  b1 ++ NL :: NL :: b2 ++ NL :: NL :: b3 ++ [NL].

(** The document of three caption blocks. *)
Definition three_blocks : str :=
  three_captions
    (caption (py "1") (py "00:00:00,000 --> 00:00:03,500")
             (py "Welcome to the CCNA course."))
    (caption (py "2") (py "00:00:03,500 --> 00:00:07,000")
             (py "Today we'll cover network fundamentals."))
    (caption (py "3") (py "00:00:07,000 --> 00:00:11,500")
             (py "The OSI model has seven layers.")).



(** The list [text_lines] after the loop over the blocks of a document. *)
Definition segments (ud : char -> bool) (doc : str) : list str :=
  fold_left (parse_block ud) (re_split blank_line (strip doc)) [].

(** [subseq a b]: [a] is [b] with some characters left out. *)
Inductive subseq : str -> str -> Prop :=
| subseq_nil l : subseq [] l
| subseq_skip x a l : subseq a l -> subseq a (x :: l)
| subseq_take x a l : subseq a l -> subseq (x :: a) (x :: l).

(** The request that [upload_text] makes for a bucket, a base file name and
    a body. *)
Definition upload_request {bytes : Type} (bucket base_filename : str) (body : bytes)
  : put_request bytes :=
  {| Bucket := bucket;
     Key := py "amazon_transcribe/ine/text/" ++ base_filename ++ py ".txt";
     Body := body;
     ContentType := py "text/plain; charset=utf-8";
     ServerSideEncryption := py "AES256";
     Metadata := [(py "source", py "aws-transcribe-pipeline");
                  (py "format", py "clean-text")] |}.

(** The record with which [lambda_handler] logs the exception it re-raises. *)
Definition error_record {bytes fault world : Type} (s3_client : service bytes fault world)
  (e : exn fault) : log_record :=
  {| level := ERROR;
     text := py "Error processing SRT file: " ++ exn_str s3_client e;
     exc_info := true |}.

Definition info_record (msg : str) : log_record :=
  {| level := INFO; text := msg; exc_info := false |}.

(** The records of a successful invocation, in order. *)
Definition success_log (bucket srt_key base_filename content clean_text : str)
  : list log_record :=
  [info_record (py "Processing SRT file: s3://" ++ bucket ++ py "/" ++ srt_key);
   info_record (py "Downloaded " ++ str_of_nat (length content)
                ++ py " bytes from s3://" ++ bucket ++ py "/" ++ srt_key);
   info_record (py "Uploaded clean text to s3://" ++ bucket ++ py "/"
                ++ py "amazon_transcribe/ine/text/" ++ base_filename ++ py ".txt");
   info_record (py "Successfully created clean text: s3://" ++ bucket ++ py "/"
                ++ py "amazon_transcribe/ine/text/" ++ base_filename ++ py ".txt");
   info_record (py "Text length: " ++ str_of_nat (length clean_text) ++ py " characters")].

(** Equality of strings, decided. *)
Fixpoint str_eqb (a b : str) : bool :=
  match a, b with
  | [], [] => true
  | x :: a', y :: b' => (x =? y)%N && str_eqb a' b'
  | _, _ => false
  end.

(** An S3 kept in memory, for the examples: the bodies are strings, the
    codec is the identity, a missing object is the only fault of
    [get_object], and [put_object] is refused when the store is read only. *)
Definition memory_s3 (read_only : bool) : service str str (list (str * str * str)) :=
  {| get_object := fun w bucket key =>
       match find (fun o => str_eqb (fst (fst o)) bucket && str_eqb (snd (fst o)) key) w with
       | Some o => inr (snd o)
       | None => inl (py "NoSuchKey")
       end;
     put_object := fun w req =>
       if read_only then (Some (py "AccessDenied"), w)
       else (None, (Bucket req, Key req, Body req) :: w);
     decode := fun b => inr b;
     encode := fun s => inr s;
     is_no_such_key := fun f => str_eqb f (py "NoSuchKey");
     fault_str := fun f => f |}.

(** The event of the handler's docstring, and a store that holds its
    object. *)
Definition docstring_event : event_t :=
  fun key =>
    if str_eqb key (py "bucket") then Some (py "04-california")
    else if str_eqb key (py "srtKey")
         then Some (py "amazon_transcribe/ine/transcripts/video01.srt")
    else if str_eqb key (py "baseFilename") then Some (py "video01")
    else None.

Definition docstring_store : list (str * str * str) :=
  [(py "04-california", py "amazon_transcribe/ine/transcripts/video01.srt", three_blocks)].

Definition docstring_run : (exn str + response) * (list (str * str * str) * list log_record) :=
  lambda_handler (memory_s3 false) ascii_only docstring_event tt (docstring_store, []).

(** Running the handler: its monad unfolded, then one case of the
    environment at a time. *)
Ltac run_handler :=
  unfold lambda_handler, download_srt, upload_text, try_except, bind, ret, raise,
    getitem, s3_get_object, s3_put_object, decode_utf8, encode_utf8,
    logger_info, logger_error; cbn [fst snd].

Ltac step_handler :=
  match goal with
  | |- context [match ?e (py ?k) with _ => _ end] =>
      destruct (e (py k)) eqn:?
  | |- context [match get_object ?s ?w ?b ?k with _ => _ end] =>
      destruct (get_object s w b k) eqn:?
  | |- context [match decode ?s ?b with _ => _ end] =>
      destruct (decode s b) eqn:?
  | |- context [match encode ?s ?b with _ => _ end] =>
      destruct (encode s b) eqn:?
  | |- context [match put_object ?s ?w ?r with _ => _ end] =>
      let f := fresh "f" in let w' := fresh "w'" in
      destruct (put_object s w r) as [[f|] w'] eqn:?
  | |- context [if is_no_such_key ?s ?f then _ else _] =>
      destruct (is_no_such_key s f) eqn:?
  end; cbn [fst snd].

(** ** The descriptions of the steps

    What the paragraph loop and the steps of the sanitizer are said to do,
    written without the functions of the program. *)

(** [words_of text ws]: [ws] are the whitespace-delimited words of [text],
    in order: [text] is whitespace, then each word, and after every word
    whitespace or the end of the text. *)
Inductive words_of : str -> list str -> Prop :=
| words_none sp : forallb isspace sp = true -> words_of sp []
| words_cons sp w rest ws :
    forallb isspace sp = true ->
    is_word w = true ->
    (forall c r, rest = c :: r -> isspace c = true) ->
    words_of rest ws ->
    words_of (sp ++ w ++ rest) (w :: ws).

(** A word that ends with '.', '!' or '?'. *)
Definition ends_sentence (w : str) : Prop :=
  exists w' c, w = w' ++ [c] /\ (c = ch "." \/ c = ch "!" \/ c = ch "?").

(** The words [ws] make a paragraph to close: with one space counted after
    every word they reach the threshold, and the last of them ends a
    sentence. *)
Definition sentence_closed (thr : Z) (ws : list str) : Prop :=
  (thr <= weight ws)%Z /\ exists ws' w, ws = ws' ++ [w] /\ ends_sentence w.

(** [group_cut o c inside least t out]: [out] is [t] without its groups,
    taken from left to right.  A group is the opener [o], at least [least]
    characters that [inside] admits, and the closer [c]; [inside] does not
    admit the closer, so a group ends with the first closer after its
    opener.  A character with which no group starts is kept, and the cut
    goes on after it; after a group it goes on after the closer. *)
Inductive group_cut (o c : char) (inside : char -> bool) (least : nat) : str -> str -> Prop :=
| group_cut_end : group_cut o c inside least [] []
| group_cut_keep x t out :
    x <> o \/ (forall body rest, t = body ++ c :: rest ->
                 forallb inside body = true -> length body < least) ->
    group_cut o c inside least t out ->
    group_cut o c inside least (x :: t) (x :: out)
| group_cut_drop body rest out :
    forallb inside body = true ->
    least <= length body ->
    group_cut o c inside least rest out ->
    group_cut o c inside least (o :: body ++ c :: rest) out.

(** What may stand between '[' and ']', and between '(' and ')': any
    character of the line but the closer. *)
Definition in_line_but (c : char) (x : char) : bool := not_char c x && not_char NL x.

(** [shortest_cut o c t out]: the cut of a text without newline by shortest
    match.  An opener that a closer follows is removed with everything up to
    the first closer after it, both included, and the cut goes on after that
    closer; every other character is kept. *)
Inductive shortest_cut (o c : char) : str -> str -> Prop :=
| shortest_end : shortest_cut o c [] []
| shortest_keep x t out :
    x <> o \/ ~ In c t ->
    shortest_cut o c t out ->
    shortest_cut o c (x :: t) (x :: out)
| shortest_group body rest out :
    ~ In c body ->
    shortest_cut o c rest out ->
    shortest_cut o c (o :: body ++ c :: rest) out.

(** A speaker label: 'Speaker ', one or more decimal digits, ':', and
    whitespace. *)
Definition is_label (ud : char -> bool) (l : str) : Prop :=
  exists ds sp,
    ds <> [] /\ forallb (isdecimal ud) ds = true /\ forallb isspace sp = true
    /\ l = py "Speaker " ++ ds ++ ch ":" :: sp.

(** [label_cut ud t out]: a label at the very start of [t] is removed with
    all the whitespace after it; a text that does not start with a label is
    left as it is, labels further on included. *)
Definition label_cut (ud : char -> bool) (t out : str) : Prop :=
  (exists l, is_label ud l /\ t = l ++ out /\ forall c r, out = c :: r -> isspace c = false)
  \/ (out = t /\ forall l r, is_label ud l -> t <> l ++ r).

(** The pattern after 'Speaker ': [\d+:\s*]. *)
Definition label_tail (ud : char -> bool) : cont :=
  one (isdecimal ud)
    (greedy (isdecimal ud)
       (one (is_char (ch ":")) (greedy isspace (fun _ _ => Some 0)))).

(** * Properties *)

(** ** Whitespace, words and [join] *)

Lemma isspace_SP : isspace SP = true.
Proof. reflexivity. Qed.

Lemma isspace_NL : isspace NL = true.
Proof. reflexivity. Qed.

Lemma is_word_cons c w : is_word (c :: w) = nonspace c && forallb nonspace w.
Proof. reflexivity. Qed.

Lemma is_word_inv w :
  is_word w = true -> exists c w', w = c :: w' /\ isspace c = false /\ forallb nonspace w' = true.
Proof.
  destruct w as [|c w']; [discriminate|].
  rewrite is_word_cons. intros H. apply andb_prop in H. destruct H as [Hc Hw].
  exists c, w'. repeat split; trivial.
  unfold nonspace in Hc. now destruct (isspace c).
Qed.

Lemma split_ws_space c s : isspace c = true -> split_ws (c :: s) = split_ws s.
Proof. intros H. simpl. now rewrite H. Qed.

Lemma split_ws_run w c rest :
  is_word w = true -> isspace c = true ->
  split_ws (w ++ c :: rest) = w :: split_ws rest.
Proof.
  intros Hw Hc. apply is_word_inv in Hw. destruct Hw as (x & w' & -> & Hx & Hw').
  revert x Hx. induction w' as [|y w' IH]; intros x Hx.
  - cbn [app split_ws]. rewrite Hx, Hc. reflexivity.
  - cbn [forallb] in Hw'. apply andb_prop in Hw'. destruct Hw' as [Hy Hw'].
    assert (Hy' : isspace y = false) by (unfold nonspace in Hy; now destruct (isspace y)).
    specialize (IH Hw' y Hy').
    change ((x :: y :: w') ++ c :: rest) with (x :: (y :: w') ++ c :: rest).
    remember ((y :: w') ++ c :: rest) as t eqn:Et.
    cbn [split_ws]. rewrite Hx.
    rewrite Et at 1. cbn [app]. rewrite Hy'.
    rewrite IH. reflexivity.
Qed.

Lemma split_ws_word w : is_word w = true -> split_ws w = [w].
Proof.
  intros Hw. apply is_word_inv in Hw. destruct Hw as (x & w' & -> & Hx & Hw').
  revert x Hx. induction w' as [|y w' IH]; intros x Hx.
  - cbn [split_ws]. now rewrite Hx.
  - cbn [forallb] in Hw'. apply andb_prop in Hw'. destruct Hw' as [Hy Hw'].
    assert (Hy' : isspace y = false) by (unfold nonspace in Hy; now destruct (isspace y)).
    specialize (IH Hw' y Hy').
    remember (y :: w') as t eqn:Et.
    cbn [split_ws]. rewrite Hx. rewrite Et at 1. rewrite Hy'.
    rewrite IH. reflexivity.
Qed.

Lemma split_ws_words s : Forall (fun w => is_word w = true) (split_ws s).
Proof.
  induction s as [|c s IH]; [constructor|].
  cbn [split_ws]. destruct (isspace c) eqn:Hc; [exact IH|].
  assert (Hn : nonspace c = true) by (unfold nonspace; now rewrite Hc).
  destruct s as [|d s'].
  - constructor; [|constructor]. cbn. now rewrite Hn.
  - destruct (isspace d) eqn:Hd.
    + constructor; [|exact IH]. cbn. now rewrite Hn.
    + destruct (split_ws (d :: s')) as [|w ws] eqn:E.
      * constructor; [|constructor]. cbn. now rewrite Hn.
      * inversion IH as [|? ? Hw Hws]; subst.
        constructor; [|exact Hws].
        rewrite is_word_cons, Hn. destruct w; [discriminate|]. exact Hw.
Qed.

Lemma join_cons2 sep x y rest :
  join sep (x :: y :: rest) = x ++ sep ++ join sep (y :: rest).
Proof. reflexivity. Qed.

(** Splitting what [join] built over words gives the words back. *)
Lemma split_ws_join_then ws c rest :
  ws <> [] -> Forall (fun w => is_word w = true) ws -> isspace c = true ->
  split_ws (join [SP] ws ++ c :: rest) = ws ++ split_ws rest.
Proof.
  intros Hne Hall Hc. induction ws as [|w ws IH]; [congruence|].
  inversion Hall as [|? ? Hw Hws]; subst.
  destruct ws as [|w2 ws].
  - cbn [join app]. now apply split_ws_run.
  - rewrite join_cons2. rewrite <- !app_assoc. cbn [app].
    rewrite split_ws_run by (trivial; apply isspace_SP).
    rewrite IH by (trivial; discriminate). reflexivity.
Qed.

Lemma split_ws_join ws :
  Forall (fun w => is_word w = true) ws -> split_ws (join [SP] ws) = ws.
Proof.
  intros Hall. induction ws as [|w ws IH]; [reflexivity|].
  inversion Hall as [|? ? Hw Hws]; subst.
  destruct ws as [|w2 ws].
  - cbn [join]. now apply split_ws_word.
  - rewrite join_cons2. cbn [app].
    rewrite split_ws_run by (trivial; apply isspace_SP).
    now rewrite IH.
Qed.

Lemma split_ws_paragraphs pss :
  Forall is_paragraph pss ->
  split_ws (join [NL; NL] (map (join [SP]) pss)) = concat pss.
Proof.
  intros Hall. induction pss as [|ps pss IH]; [reflexivity|].
  inversion Hall as [|? ? [Hne Hws] Hrest]; subst.
  destruct pss as [|qs pss].
  - cbn [map join concat]. rewrite app_nil_r. now apply split_ws_join.
  - cbn [map]. rewrite join_cons2. cbn [app concat].
    rewrite split_ws_join_then by (trivial; apply isspace_NL).
    rewrite split_ws_space by apply isspace_NL.
    f_equal. exact (IH Hrest).
Qed.

(** ** The paragraph loop, seen on lists of words *)

Lemma weight_app a b : weight (a ++ b) = (weight a + weight b)%Z.
Proof. induction a as [|w a IH]; cbn [app weight]; lia. Qed.

Lemma weight_snoc cur w : weight (cur ++ [w]) = (weight cur + (Z.of_nat (length w) + 1))%Z.
Proof. rewrite weight_app. cbn [weight]. lia. Qed.

Lemma fold_reflow thr ws : forall st,
  current_length st = weight (current_paragraph st) ->
  fold_left (reflow_word thr) ws st =
  {| paragraphs := paragraphs st ++ map (join [SP]) (fst (chunk thr (current_paragraph st) ws));
     current_paragraph := snd (chunk thr (current_paragraph st) ws);
     current_length := weight (snd (chunk thr (current_paragraph st) ws)) |}.
Proof.
  induction ws as [|w ws IH]; intros st Hlen.
  - cbn [fold_left chunk fst snd map]. rewrite app_nil_r, <- Hlen. now destruct st.
  - cbn [fold_left chunk].
    assert (Hc : ((thr <=? current_length st + (Z.of_nat (length w) + 1))%Z
                  && endswith_any w terminals) = closes thr (current_paragraph st ++ [w])).
    { unfold closes. rewrite weight_snoc, last_last, Hlen. reflexivity. }
    unfold reflow_word at 2. cbv zeta. rewrite Hc.
    destruct (closes thr (current_paragraph st ++ [w])).
    + rewrite IH by reflexivity. cbn [paragraphs current_paragraph].
      destruct (chunk thr [] ws) as [ps r]. cbn [fst snd map].
      rewrite <- app_assoc. reflexivity.
    + rewrite IH by (cbn [current_length current_paragraph]; rewrite weight_snoc; lia).
      reflexivity.
Qed.

Lemma reflow_paragraphs_groups text thr :
  reflow_paragraphs text thr = map (join [SP]) (groups thr (split_ws text)).
Proof.
  unfold reflow_paragraphs, groups. cbv zeta.
  rewrite fold_reflow by reflexivity. cbn [paragraphs current_paragraph reflow_start app].
  destruct (chunk thr [] (split_ws text)) as [ps r]. cbn [fst snd].
  destruct r; [reflexivity|]. rewrite map_app. reflexivity.
Qed.

Lemma snoc_split (A : Type) (cur : list A) w pre suf :
  cur ++ [w] = pre ++ suf -> suf <> [] -> exists suf', cur = pre ++ suf' /\ suf = suf' ++ [w].
Proof.
  intros E Hs. destruct (exists_last Hs) as (suf' & x & ->).
  rewrite app_assoc in E. apply app_inj_tail in E. destruct E as [E ->].
  now exists suf'.
Qed.

Lemma chunk_spec thr ws : forall cur,
  still_open thr cur ->
  concat (fst (chunk thr cur ws)) ++ snd (chunk thr cur ws) = cur ++ ws
  /\ Forall (fun p => p <> [] /\ closes thr p = true /\ closed_first thr p) (fst (chunk thr cur ws))
  /\ still_open thr (snd (chunk thr cur ws)).
Proof.
  induction ws as [|w ws IH]; intros cur Hopen.
  - cbn [chunk fst snd concat app]. rewrite app_nil_r. repeat split; trivial.
  - cbn [chunk]. destruct (closes thr (cur ++ [w])) eqn:Hc.
    + assert (Hnil : still_open thr []).
      { intros pre suf E Hpre. symmetry in E. apply app_eq_nil in E. tauto. }
      destruct (IH [] Hnil) as (Hcat & Hall & Hr).
      destruct (chunk thr [] ws) as [ps r]. cbn [fst snd] in *.
      cbn [concat]. repeat split.
      * rewrite <- !app_assoc. cbn [app] in *. now rewrite Hcat.
      * constructor; [|exact Hall]. repeat split; trivial.
        -- now destruct cur.
        -- intros pre suf E Hpre Hsuf.
           destruct (@snoc_split _ cur w pre suf E Hsuf) as (suf' & E' & _).
           exact (Hopen pre suf' E' Hpre).
      * exact Hr.
    + assert (Hopen' : still_open thr (cur ++ [w])).
      { intros pre suf E Hpre. destruct suf as [|x suf].
        - rewrite app_nil_r in E. now subst pre.
        - destruct (@snoc_split _ cur w pre (x :: suf) E) as (suf' & E' & _); [discriminate|].
          exact (Hopen pre suf' E' Hpre). }
      destruct (IH _ Hopen') as (Hcat & Hall & Hr).
      repeat split; trivial. rewrite Hcat, <- app_assoc. reflexivity.
Qed.

Lemma still_open_nil thr : still_open thr [].
Proof. intros pre suf E Hpre. symmetry in E. apply app_eq_nil in E. tauto. Qed.

(** What the loop produces, stated on the lists of words. *)
Lemma groups_spec thr ws :
  concat (groups thr ws) = ws
  /\ Forall (fun p => p <> [] /\ closed_first thr p) (groups thr ws)
  /\ (forall a p b, groups thr ws = a ++ p :: b -> b <> [] -> closes thr p = true).
Proof.
  destruct (chunk_spec thr ws [] (still_open_nil thr)) as (Hcat & Hall & Hr).
  unfold groups. destruct (chunk thr [] ws) as [ps r]. cbn [fst snd app] in *.
  assert (Hall' : Forall (fun p => p <> [] /\ closed_first thr p) ps).
  { eapply Forall_impl; [|exact Hall]. cbv beta. tauto. }
  destruct r as [|x r].
  - rewrite app_nil_r in Hcat. repeat split; trivial.
    intros a p b E _. rewrite E in Hall. apply Forall_app in Hall. destruct Hall as [_ Hall].
    inversion Hall; tauto.
  - repeat split.
    + rewrite concat_app. cbn [concat]. now rewrite app_nil_r.
    + apply Forall_app. split; trivial. constructor; [|constructor]. split; [discriminate|].
      intros pre suf E Hpre _. exact (Hr pre suf E Hpre).
    + intros a p b E Hb. destruct (exists_last Hb) as (b' & y & ->).
      change (a ++ p :: b' ++ [y]) with (a ++ (p :: b') ++ [y]) in E.
      rewrite app_assoc in E. apply app_inj_tail in E. destruct E as [E _].
      rewrite E in Hall. apply Forall_app in Hall. destruct Hall as [_ Hall].
      inversion Hall; tauto.
Qed.

(** ** The scan *)

Lemma skipn_length_le (n : nat) (s : str) : length (skipn n s) <= length s.
Proof. rewrite length_skipn. lia. Qed.

Lemma scan_from_S fuel p bos s :
  scan_from (S fuel) p bos s =
  match s with
  | [] => match re_match p bos [] with
          | Some _ => [Hit []]
          | None => []
          end
  | c :: s' =>
      match re_match p bos s with
      | Some (S n) => Hit (firstn (S n) s) :: scan_from fuel p false (skipn (S n) s)
      | Some O => Hit [] :: Lit c :: scan_from fuel p false s'
      | None => Lit c :: scan_from fuel p false s'
      end
  end.
Proof. reflexivity. Qed.

Lemma scan_from_fuel p : forall f1 f2 bos s,
  length s < f1 -> length s < f2 -> scan_from f1 p bos s = scan_from f2 p bos s.
Proof.
  induction f1 as [|f1 IH]; intros f2 bos s H1 H2; [lia|].
  destruct f2 as [|f2]; [lia|].
  destruct s as [|c s]; [reflexivity|].
  rewrite !scan_from_S. cbn [length] in H1, H2.
  destruct (re_match p bos (c :: s)) as [[|n]|].
  - f_equal. f_equal. apply IH; lia.
  - f_equal. cbn [skipn]. pose proof (skipn_length_le n s). apply IH; lia.
  - f_equal. apply IH; lia.
Qed.

Lemma scan_at_nil p bos :
  scan_at p bos [] = match re_match p bos [] with Some _ => [Hit []] | None => [] end.
Proof. reflexivity. Qed.

Lemma scan_at_cons p bos c s :
  scan_at p bos (c :: s) =
  match re_match p bos (c :: s) with
  | Some (S n) => Hit (c :: firstn n s) :: scan_at p false (skipn n s)
  | Some O => Hit [] :: Lit c :: scan_at p false s
  | None => Lit c :: scan_at p false s
  end.
Proof.
  unfold scan_at. cbn [length]. rewrite scan_from_S.
  destruct (re_match p bos (c :: s)) as [[|n]|]; trivial.
  cbn [firstn skipn]. f_equal. pose proof (skipn_length_le n s).
  apply scan_from_fuel; lia.
Qed.

Lemma scan_is_scan_at p s : scan p s = scan_at p true s.
Proof. reflexivity. Qed.

(** Strong induction on the length of a string. *)
Lemma str_length_ind (P : str -> Prop) :
  (forall s, (forall t, length t < length s -> P t) -> P s) -> forall s, P s.
Proof.
  intros H s. remember (length s) as n eqn:E.
  revert s E. induction n as [n IH] using lt_wf_ind.
  intros s ->. apply H. intros t Ht. exact (IH _ Ht t eq_refl).
Qed.

Lemma scan_at_text p : forall s bos, flat_map piece_text (scan_at p bos s) = s.
Proof.
  induction s as [s IH] using str_length_ind. intros bos.
  destruct s as [|c s].
  - rewrite scan_at_nil. now destruct (re_match p bos []).
  - rewrite scan_at_cons. destruct (re_match p bos (c :: s)) as [[|n]|];
      cbn [flat_map piece_text app].
    + f_equal. apply IH. cbn [length]. lia.
    + f_equal. rewrite IH.
      * apply firstn_skipn.
      * pose proof (skipn_length_le n s). cbn [length]. lia.
    + f_equal. apply IH. cbn [length]. lia.
Qed.


(** ** What a match consists of *)






(** ** [strip] *)

Lemma nonspace_false c : nonspace c = true <-> isspace c = false.
Proof. unfold nonspace. destruct (isspace c); intuition discriminate. Qed.

Lemma lstrip_suffix s : exists pre, s = pre ++ lstrip s /\ forallb isspace pre = true.
Proof.
  induction s as [|c s (pre & E & Hpre)].
  - now exists [].
  - cbn [lstrip]. destruct (isspace c) eqn:Hc.
    + exists (c :: pre). cbn [app forallb]. rewrite Hc, Hpre. split; [now f_equal|reflexivity].
    + now exists [].
Qed.

Lemma lstrip_head s c t : lstrip s = c :: t -> isspace c = false.
Proof.
  induction s as [|d s IH]; [discriminate|].
  cbn [lstrip]. destruct (isspace d) eqn:Hd; [exact IH|].
  intros E. injection E as <- _. exact Hd.
Qed.

Lemma lstrip_spaces s : forallb isspace s = true -> lstrip s = [].
Proof.
  induction s as [|c s IH]; [reflexivity|].
  cbn [forallb lstrip]. intros H. apply andb_prop in H. destruct H as [-> H]. now apply IH.
Qed.

Lemma rstrip_prefix s : exists post, s = rstrip s ++ post /\ forallb isspace post = true.
Proof.
  unfold rstrip. destruct (lstrip_suffix (rev s)) as (pre & E & Hpre).
  exists (rev pre). split.
  - rewrite <- rev_app_distr, <- E. now rewrite rev_involutive.
  - rewrite forallb_forall in *. intros x Hx. apply Hpre. now apply in_rev.
Qed.

(** [strip] keeps a middle part of its argument. *)
Lemma strip_middle s : exists pre post, s = pre ++ strip s ++ post.
Proof.
  destruct (lstrip_suffix s) as (pre & E & _).
  destruct (rstrip_prefix (lstrip s)) as (post & E' & _).
  exists pre, post. unfold strip. now rewrite <- E'.
Qed.

Lemma strip_spaces s : forallb isspace s = true -> strip s = [].
Proof. intros H. unfold strip. now rewrite lstrip_spaces. Qed.

(** ** Runs of whitespace *)

Lemma single_spaced_sound s : single_spaced s = true -> no_ws_pair s.
Proof.
  intros H a. revert s H. induction a as [|x a IH]; intros s H c1 c2 b E H1 H2.
  - subst s. cbn in H. now rewrite H1, H2 in H.
  - subst s. apply (IH (a ++ c1 :: c2 :: b)) with (c1 := c1) (c2 := c2) (b := b); trivial.
    cbn [app single_spaced] in H. destruct (a ++ c1 :: c2 :: b) eqn:E.
    + now destruct a.
    + now apply andb_prop in H.
Qed.

Lemma tidy_sound s : tidy s = true -> well_spaced s.
Proof.
  intros H a. revert s H. induction a as [|x a IH]; intros s H c1 c2 b E H1 H2.
  - subst s. cbn [app tidy] in H. rewrite H1, H2 in H. cbn [andb] in H.
    apply andb_prop in H. destruct H as [H _].
    apply andb_prop in H. destruct H as [H H3].
    apply andb_prop in H. destruct H as [Hc1 Hc2].
    apply N.eqb_eq in Hc1, Hc2. repeat split; trivial.
    intros c3 b' ->. now destruct (isspace c3).
  - subst s. apply (IH (a ++ c1 :: c2 :: b)); trivial.
    cbn [app tidy] in H. destruct (a ++ c1 :: c2 :: b) eqn:E.
    + now destruct a.
    + now apply andb_prop in H.
Qed.

Lemma no_ws_pair_well_spaced s : no_ws_pair s -> well_spaced s.
Proof. intros H a c1 c2 b E H1 H2. destruct (H a c1 c2 b E H1 H2). Qed.

Lemma no_ws_pair_middle pre s post : no_ws_pair (pre ++ s ++ post) -> no_ws_pair s.
Proof.
  intros H a c1 c2 b E. apply (H (pre ++ a) c1 c2 (b ++ post)).
  rewrite E, <- !app_assoc. reflexivity.
Qed.

Lemma well_spaced_no_double_space s : well_spaced s -> no_double_space s.
Proof.
  intros H a b E. destruct (H a SP SP b E isspace_SP isspace_SP) as (E1 & _). discriminate.
Qed.

Lemma well_spaced_no_triple_newline s : well_spaced s -> no_triple_newline s.
Proof.
  intros H a b E. destruct (H a NL NL (NL :: b) E isspace_NL isspace_NL) as (_ & _ & H3).
  specialize (H3 NL b eq_refl). discriminate.
Qed.

Lemma tidy_nonspace x rest : isspace x = false -> tidy (x :: rest) = tidy rest.
Proof.
  intros Hx. cbn [tidy]. destruct rest as [|c2 s2]; [reflexivity|]. now rewrite Hx.
Qed.

Lemma tidy_word_app w rest : forallb nonspace w = true -> tidy (w ++ rest) = tidy rest.
Proof.
  induction w as [|x w IH]; [reflexivity|].
  cbn [forallb app]. intros H. apply andb_prop in H. destruct H as [Hx Hw].
  apply nonspace_false in Hx. rewrite tidy_nonspace by trivial. now apply IH.
Qed.

Lemma tidy_space_then c t : isspace c = false -> tidy (SP :: c :: t) = tidy (c :: t).
Proof.
  intros Hc. change (tidy (SP :: c :: t))
    with ((if isspace SP && isspace c
           then (SP =? NL)%N && (c =? NL)%N
                && match t with c3 :: _ => negb (isspace c3) | [] => true end
           else true) && tidy (c :: t)).
  now rewrite Hc, andb_false_r.
Qed.

Lemma tidy_break_then c t : isspace c = false -> tidy (NL :: NL :: c :: t) = tidy (c :: t).
Proof.
  intros Hc. change (tidy (NL :: NL :: c :: t))
    with ((if isspace NL && isspace NL
           then (NL =? NL)%N && (NL =? NL)%N && negb (isspace c)
           else true) && tidy (NL :: c :: t)).
  rewrite isspace_NL, Hc. cbn [andb negb]. rewrite N.eqb_refl. cbn [andb].
  change (tidy (NL :: c :: t))
    with ((if isspace NL && isspace c
           then (NL =? NL)%N && (c =? NL)%N
                && match t with c3 :: _ => negb (isspace c3) | [] => true end
           else true) && tidy (c :: t)).
  now rewrite Hc, andb_false_r.
Qed.

Lemma is_word_nonspace w : is_word w = true -> forallb nonspace w = true.
Proof. destruct w; [discriminate|trivial]. Qed.

Lemma join_paragraph_head ps :
  is_paragraph ps -> exists c t, join [SP] ps = c :: t /\ isspace c = false.
Proof.
  intros [Hne Hall]. destruct ps as [|w ps]; [congruence|].
  inversion Hall as [|? ? Hw _]; subst.
  destruct (is_word_inv w Hw) as (c & w' & -> & Hc & _).
  destruct ps as [|w2 ps].
  - now exists c, w'.
  - rewrite join_cons2. cbn [app]. eauto.
Qed.

Lemma tidy_join_words ps rest :
  is_paragraph ps -> tidy (join [SP] ps ++ rest) = tidy rest.
Proof.
  intros [Hne Hall]. induction ps as [|w ps IH]; [congruence|].
  inversion Hall as [|? ? Hw Hws]; subst.
  destruct ps as [|w2 ps].
  - cbn [join]. apply tidy_word_app. now apply is_word_nonspace.
  - rewrite join_cons2. rewrite <- !app_assoc.
    rewrite tidy_word_app by now apply is_word_nonspace.
    assert (Hp : is_paragraph (w2 :: ps)) by (split; [discriminate|trivial]).
    destruct (join_paragraph_head _ Hp) as (c & t & E & Hc).
    cbn [app]. rewrite <- (IH ltac:(discriminate) Hws).
    rewrite E. cbn [app]. now apply tidy_space_then.
Qed.

Lemma join_paragraphs_head ps pss :
  is_paragraph ps ->
  exists c t, join [NL; NL] (map (join [SP]) (ps :: pss)) = c :: t /\ isspace c = false.
Proof.
  intros Hp. destruct (join_paragraph_head _ Hp) as (c & t & E & Hc).
  destruct pss as [|qs pss].
  - cbn [map join]. eauto.
  - cbn [map]. rewrite join_cons2, E. cbn [app]. eauto.
Qed.

Lemma tidy_paragraphs pss :
  Forall is_paragraph pss -> tidy (join [NL; NL] (map (join [SP]) pss)) = true.
Proof.
  intros Hall. induction pss as [|ps pss IH]; [reflexivity|].
  inversion Hall as [|? ? Hp Hrest]; subst.
  destruct pss as [|qs pss].
  - cbn [map join]. rewrite <- (app_nil_r (join [SP] ps)). now rewrite tidy_join_words.
  - cbn [map]. rewrite join_cons2. rewrite tidy_join_words by trivial.
    inversion Hrest as [|? ? Hq _]; subst.
    destruct (join_paragraphs_head qs pss Hq) as (c & t & E & Hc).
    rewrite <- (IH Hrest). cbn [map] in E |- *. rewrite E. cbn [app].
    now apply tidy_break_then.
Qed.

(** ** [re.sub(r'\s+', ' ', s)] *)

Lemma re_sub_sub_at p repl s : re_sub p repl s = sub_at p repl true s.
Proof. reflexivity. Qed.

Lemma greedy_spaces s : forall bos,
  exists n, greedy isspace (fun _ _ => Some 0) bos s = Some n /\ skipn n s = lstrip s.
Proof.
  induction s as [|c s IH]; intros bos.
  - now exists 0.
  - cbn [greedy lstrip]. destruct (isspace c).
    + destruct (IH false) as (n & -> & E). now exists (S n).
    + now exists 0.
Qed.

Lemma collapse_nil bos : sub_at ws_run [SP] bos [] = [].
Proof. reflexivity. Qed.

Lemma collapse_cons bos c s :
  sub_at ws_run [SP] bos (c :: s) =
  if isspace c then SP :: sub_at ws_run [SP] false (lstrip s)
  else c :: sub_at ws_run [SP] false s.
Proof.
  unfold sub_at. rewrite scan_at_cons.
  change (re_match ws_run bos (c :: s))
    with (if isspace c then option_map S (greedy isspace (fun _ _ => Some 0) false s) else None).
  destruct (isspace c); [|reflexivity].
  destruct (greedy_spaces s false) as (n & -> & E).
  cbn [option_map flat_map put app]. now rewrite E.
Qed.

Lemma lstrip_length s : length (lstrip s) <= length s.
Proof.
  destruct (lstrip_suffix s) as (pre & E & _). rewrite E at 2. rewrite length_app. lia.
Qed.

Lemma single_spaced_cons c d r :
  single_spaced (c :: d :: r) = negb (isspace c && isspace d) && single_spaced (d :: r).
Proof. reflexivity. Qed.

Lemma collapse_single_spaced : forall s bos,
  single_spaced (sub_at ws_run [SP] bos s) = true
  /\ (forall d t, s = d :: t -> isspace d = false ->
        exists t', sub_at ws_run [SP] bos s = d :: t').
Proof.
  induction s as [s IH] using str_length_ind. intros bos.
  destruct s as [|c s]; [split; [reflexivity|discriminate]|].
  rewrite collapse_cons. destruct (isspace c) eqn:Hc.
  - split.
    + destruct (lstrip s) as [|d t] eqn:El.
      * reflexivity.
      * pose proof (lstrip_length s) as Hlen. rewrite El in Hlen.
        destruct (IH (d :: t) ltac:(cbn [length] in *; lia) false) as (H1 & H2).
        destruct (H2 d t eq_refl (lstrip_head _ _ _ El)) as (t' & E).
        rewrite E in H1 |- *. rewrite single_spaced_cons, H1.
        rewrite isspace_SP, (lstrip_head _ _ _ El). reflexivity.
    + intros d t E Hd. injection E as <- _. congruence.
  - destruct (IH s ltac:(cbn [length]; lia) false) as (H1 & _). split.
    + destruct (sub_at ws_run [SP] false s) as [|d r]; [reflexivity|].
      rewrite single_spaced_cons, H1, Hc. reflexivity.
    + intros d t E _. injection E as <- _. eauto.
Qed.

(** What the program calls normalising whitespace leaves no two whitespace
    characters side by side. *)
Lemma normalized_no_ws_pair s : no_ws_pair (strip (re_sub ws_run [SP] s)).
Proof.
  destruct (strip_middle (re_sub ws_run [SP] s)) as (pre & post & E).
  apply (no_ws_pair_middle pre _ post). rewrite <- E.
  apply single_spaced_sound. rewrite re_sub_sub_at. apply collapse_single_spaced.
Qed.

(** ** Matches of [\[.*?\]] and [\(.*?\)] *)

Lemma re_match_group_lazy o c bos x t :
  re_match (group_lazy o c) bos (x :: t) =
  if (x =? o)%N then option_map S (lazy dot (closer c) false t) else None.
Proof. reflexivity. Qed.

Lemma closer_cons c bos y t :
  closer c bos (y :: t) = if (y =? c)%N then Some 1 else None.
Proof. unfold closer, one, is_char. now destruct (y =? c)%N. Qed.

Lemma lazy_cons f k bos y t :
  lazy f k bos (y :: t) =
  match k bos (y :: t) with
  | Some n => Some n
  | None => if f y then option_map S (lazy f k false t) else None
  end.
Proof. reflexivity. Qed.

Lemma dot_spec y : dot y = true <-> y <> NL.
Proof.
  unfold dot, not_char. destruct (N.eqb_spec y NL); cbn; intuition congruence.
Qed.

(** The lazy repetition stops at the first closer, when no newline stands
    before it. *)
Lemma lazy_close_some c : forall t bos n,
  lazy dot (closer c) bos t = Some n ->
  exists body rest, t = body ++ c :: rest /\ ~ In c body /\ ~ In NL body /\ n = S (length body).
Proof.
  induction t as [|y t IH]; intros bos n E; [discriminate|].
  rewrite lazy_cons, closer_cons in E. destruct (N.eqb_spec y c) as [->|Hy].
  - injection E as <-. exists [], t. repeat split; auto.
  - destruct (dot y) eqn:Hd; [|discriminate].
    destruct (lazy dot (closer c) false t) as [n'|] eqn:El; [|discriminate].
    injection E as <-. destruct (IH _ _ El) as (body & rest & -> & Hc & Hn & ->).
    apply dot_spec in Hd.
    exists (y :: body), rest. repeat split; trivial.
    + intros [H|H]; [congruence|auto].
    + intros [H|H]; [congruence|auto].
Qed.

Lemma lazy_close_none c : forall t bos,
  lazy dot (closer c) bos t = None ->
  forall body rest, t = body ++ c :: rest -> In NL body.
Proof.
  induction t as [|y t IH]; intros bos E body rest Et.
  - now destruct body.
  - rewrite lazy_cons, closer_cons in E. destruct (N.eqb_spec y c) as [->|Hy]; [discriminate|].
    destruct body as [|z body]; cbn [app] in Et; injection Et as <- Et; [congruence|].
    destruct (dot y) eqn:Hd.
    + destruct (lazy dot (closer c) false t) eqn:El; [discriminate|].
      right. exact (IH _ El _ _ Et).
    + left. destruct (N.eqb_spec y NL) as [->|Hn]; trivial.
      apply dot_spec in Hn. congruence.
Qed.

Lemma firstn_past (body : str) c rest :
  firstn (S (length body)) (body ++ c :: rest) = body ++ [c].
Proof.
  induction body as [|y body IH]; [reflexivity|].
  cbn [length app]. rewrite firstn_cons. now rewrite IH.
Qed.

Lemma skipn_past (body : str) c rest :
  skipn (S (length body)) (body ++ c :: rest) = rest.
Proof.
  induction body as [|y body IH]; [reflexivity|].
  cbn [length app]. now rewrite skipn_cons.
Qed.

Lemma scan_lazy_cut o c : forall s bos, lazy_cut o c s (scan_at (group_lazy o c) bos s).
Proof.
  induction s as [s IH] using str_length_ind. intros bos.
  destruct s as [|x t]; [constructor|].
  rewrite scan_at_cons, re_match_group_lazy.
  destruct (N.eqb_spec x o) as [->|Hx].
  - destruct (lazy dot (closer c) false t) as [n|] eqn:El; cbn [option_map].
    + destruct (lazy_close_some _ _ _ _ El) as (body & rest & -> & Hc & Hn & ->).
      rewrite firstn_past, skipn_past. constructor; trivial.
      apply IH. cbn [length]. rewrite length_app. cbn [length]. lia.
    + constructor.
      * right. exact (lazy_close_none _ _ _ El).
      * apply IH. cbn [length]. lia.
  - constructor; [now left|]. apply IH. cbn [length]. lia.
Qed.



(** The pieces of a cut are the string: a removal takes the matches out and
    keeps every other character in place. *)
Lemma sub_at_erase p bos s :
  sub_at p [] bos s = flat_map (fun x => match x with Lit c => [c] | Hit _ => [] end)
                               (scan_at p bos s).
Proof. reflexivity. Qed.

(** ** Matches of [<[^>]+>] and [\{[^}]+\}] *)

Lemma is_char_eq a x : is_char a x = true -> x = a.
Proof. unfold is_char. now intros H%N.eqb_eq. Qed.

Lemma not_char_all c body : forallb (not_char c) body = true -> ~ In c body.
Proof.
  rewrite forallb_forall. intros H Hin. specialize (H _ Hin).
  unfold not_char in H. now rewrite N.eqb_refl in H.
Qed.




(** ** An opener that no closer follows *)






(** ** The anchor [^] *)

Lemma scan_at_anchored p s : scan_at (Bos :: p) false s = map Lit s.
Proof.
  induction s as [|c s IH]; [reflexivity|].
  rewrite scan_at_cons. cbn [re_match map]. now rewrite IH.
Qed.

Lemma sub_at_anchored p repl s : sub_at (Bos :: p) repl false s = s.
Proof.
  unfold sub_at. rewrite scan_at_anchored.
  induction s as [|c s IH]; [reflexivity|]. cbn [map flat_map put app]. now rewrite IH.
Qed.

(** A pattern that starts with [^] is replaced at the start of the string,
    or nowhere. *)
Lemma re_sub_anchored p s :
  re_sub (Bos :: p) [] s =
  match re_match (Bos :: p) true s with
  | Some n => skipn n s
  | None => s
  end.
Proof.
  rewrite re_sub_sub_at. destruct s as [|c s].
  - unfold sub_at. rewrite scan_at_nil.
    destruct (re_match (Bos :: p) true []) as [n|]; [|reflexivity]. now destruct n.
  - unfold sub_at. rewrite scan_at_cons.
    destruct (re_match (Bos :: p) true (c :: s)) as [[|n]|]; cbn [flat_map put app skipn].
    + f_equal. apply sub_at_anchored.
    + apply sub_at_anchored.
    + f_equal. apply sub_at_anchored.
Qed.

(** ** Paragraphs as strings *)

Lemma groups_paragraphs thr ws :
  Forall (fun w => is_word w = true) ws -> Forall is_paragraph (groups thr ws).
Proof.
  intros Hws. destruct (groups_spec thr ws) as (Hcat & Hall & _).
  rewrite <- Hcat in Hws. apply Forall_concat in Hws.
  rewrite Forall_forall in *. intros p Hp. split; [apply (Hall p Hp)|apply (Hws p Hp)].
Qed.

Lemma add_paragraph_breaks_long text thr :
  (thr < Z.of_nat (length text))%Z ->
  add_paragraph_breaks text thr
  = join [NL; NL] (map (join [SP]) (groups thr (split_ws text))).
Proof.
  intros H. unfold add_paragraph_breaks.
  destruct (Z.leb_spec (Z.of_nat (length text)) thr); [lia|].
  now rewrite reflow_paragraphs_groups.
Qed.

Lemma add_paragraph_breaks_short text thr :
  (Z.of_nat (length text) <= thr)%Z -> add_paragraph_breaks text thr = text.
Proof.
  intros H. unfold add_paragraph_breaks.
  destruct (Z.leb_spec (Z.of_nat (length text)) thr); [reflexivity|lia].
Qed.

Lemma add_paragraph_breaks_well_spaced text thr :
  no_ws_pair text -> well_spaced (add_paragraph_breaks text thr).
Proof.
  intros H. destruct (Z.le_gt_cases (Z.of_nat (length text)) thr) as [Hle|Hgt].
  - rewrite add_paragraph_breaks_short by trivial. now apply no_ws_pair_well_spaced.
  - rewrite add_paragraph_breaks_long by trivial. apply tidy_sound, tidy_paragraphs.
    apply groups_paragraphs, split_ws_words.
Qed.


Lemma join_last ps : ps <> [] -> exists pre, join [SP] ps = pre ++ last ps [].
Proof.
  intros Hne. induction ps as [|w ps IH]; [congruence|].
  destruct ps as [|w2 ps].
  - now exists [].
  - destruct (IH ltac:(discriminate)) as (pre & E).
    exists (w ++ [SP] ++ pre). rewrite join_cons2, E.
    change (last (w :: w2 :: ps) []) with (last (w2 :: ps) []).
    now rewrite <- !app_assoc.
Qed.



(** ** A block of the document *)

Lemma fold_parse_block_app ud pre post acc :
  fold_left (parse_block ud) (pre ++ post) acc
  = fold_left (parse_block ud) post (fold_left (parse_block ud) pre acc).
Proof. apply fold_left_app. Qed.

Lemma parse_block_short ud text_lines block :
  length (split_on NL (strip block)) < 3 -> parse_block ud text_lines block = text_lines.
Proof.
  intros H. unfold parse_block. destruct (strip block) as [|c b]; [reflexivity|].
  cbv zeta. destruct (Nat.leb_spec 3 (length (split_on NL (c :: b)))); [lia|reflexivity].
Qed.

(** ** The speaker label *)

Lemma one_is_char a k bos s n :
  one (is_char a) k bos s = Some n ->
  exists s' n', s = a :: s' /\ k false s' = Some n' /\ n = S n'.
Proof.
  unfold one. destruct s as [|c s]; [discriminate|].
  destruct (is_char a c) eqn:Hc; [|discriminate]. apply is_char_eq in Hc. subst c.
  destruct (k false s) as [n'|] eqn:Ek; [|discriminate].
  intros E. injection E as <-. eauto.
Qed.

Lemma speaker_label_match ud s n :
  re_match (speaker_label ud) true s = Some n ->
  startswith (firstn n s) (py "Speaker ") = true.
Proof.
  intros E. unfold speaker_label, lit in E.
  cbn [py list_ascii_of_string map app re_match] in E.
  repeat (apply one_is_char in E; destruct E as (? & ? & -> & E & ->)).
  reflexivity.
Qed.

(** The label is removed at the start of the segment, or nowhere. *)
Lemma speaker_label_prefix ud text :
  exists label,
    text = label ++ re_sub (speaker_label ud) [] text
    /\ (label = [] \/ startswith label (py "Speaker ") = true).
Proof.
  unfold speaker_label at 1. rewrite re_sub_anchored. fold (speaker_label ud).
  destruct (re_match (speaker_label ud) true text) as [n|] eqn:E.
  - exists (firstn n text). split; [now rewrite firstn_skipn|].
    right. exact (speaker_label_match _ _ _ E).
  - exists []. split; [reflexivity|now left].
Qed.

(** ** Caption blocks *)

Lemma lstrip_nonspace c s : isspace c = false -> lstrip (c :: s) = c :: s.
Proof. intros H. cbn [lstrip]. now rewrite H. Qed.

Lemma rstrip_nonspace s d : isspace d = false -> rstrip (s ++ [d]) = s ++ [d].
Proof.
  intros H. unfold rstrip. rewrite rev_app_distr. cbn [rev app].
  rewrite lstrip_nonspace by exact H.
  change (d :: rev s) with ([d] ++ rev s). rewrite rev_app_distr, rev_involutive.
  reflexivity.
Qed.

Lemma rstrip_space s c : isspace c = true -> rstrip (s ++ [c]) = rstrip s.
Proof.
  intros H. unfold rstrip. rewrite rev_app_distr. cbn [rev app lstrip]. now rewrite H.
Qed.

Lemma caption_head i t s :
  header_line i -> exists c r, caption i t s = c :: r /\ isspace c = false.
Proof.
  intros (_ & c & i' & -> & Hc). exists c, (i' ++ NL :: t ++ NL :: s). now split.
Qed.

Lemma caption_last i t s :
  text_line s -> exists r d, caption i t s = r ++ [d] /\ isspace d = false.
Proof.
  intros (_ & s' & d & -> & Hd). exists (i ++ NL :: t ++ NL :: s'), d.
  split; [|exact Hd]. unfold caption. rewrite <- !app_assoc. cbn [app].
  rewrite <- !app_assoc. reflexivity.
Qed.

Lemma strip_caption i t s :
  header_line i -> text_line s -> strip (caption i t s) = caption i t s.
Proof.
  intros Hi Hs. unfold strip.
  destruct (caption_head i t s Hi) as (c & r & E & Hc).
  destruct (caption_last i t s Hs) as (r' & d & E' & Hd).
  rewrite E, lstrip_nonspace, <- E by exact Hc.
  rewrite E'. now apply rstrip_nonspace.
Qed.

Lemma split_on_line l rest :
  ~ In NL l -> split_on NL (l ++ NL :: rest) = l :: split_on NL rest.
Proof.
  induction l as [|x l IH]; intros H.
  - cbn [app split_on]. now rewrite N.eqb_refl.
  - cbn [app split_on]. destruct (N.eqb_spec x NL) as [->|_].
    + destruct H. now left.
    + rewrite IH by (intros Hin; apply H; now right). reflexivity.
Qed.

Lemma split_on_last l : ~ In NL l -> split_on NL l = [l].
Proof.
  induction l as [|x l IH]; intros H; [reflexivity|].
  cbn [split_on]. destruct (N.eqb_spec x NL) as [->|_].
  - destruct H. now left.
  - rewrite IH by (intros Hin; apply H; now right). reflexivity.
Qed.

Lemma parse_block_nonempty ud acc block c r :
  strip block = c :: r ->
  parse_block ud acc block =
  if 3 <=? length (split_on NL (strip block)) then
    match clean_subtitle_text ud (join [SP] (skipn 2 (split_on NL (strip block)))) with
    | [] => acc
    | _ :: _ =>
        acc ++ [clean_subtitle_text ud (join [SP] (skipn 2 (split_on NL (strip block))))]
    end
  else acc.
Proof.
  intros E. unfold parse_block. destruct (strip block); [discriminate|reflexivity].
Qed.

(** A caption block whose text the sanitizer leaves as it is adds that text
    to [text_lines]. *)
Lemma parse_caption ud acc i t s :
  header_line i -> header_line t -> text_line s -> clean_subtitle_text ud s = s ->
  parse_block ud acc (caption i t s) = acc ++ [s].
Proof.
  intros Hi Ht Hs Hclean.
  destruct (caption_head i t s Hi) as (c & r & E & _).
  rewrite (parse_block_nonempty ud acc _ c r) by (now rewrite strip_caption).
  rewrite strip_caption by trivial. unfold caption.
  rewrite split_on_line by apply Hi. rewrite split_on_line by apply Ht.
  rewrite split_on_last by apply Hs.
  cbn [length Nat.leb skipn join]. rewrite Hclean.
  destruct Hs as ((_ & c' & s' & -> & _) & _). reflexivity.
Qed.

Lemma scan_blank_bos bos s : scan_at blank_line bos s = scan_at blank_line false s.
Proof.
  destruct s as [|c s]; [reflexivity|]. now rewrite !scan_at_cons.
Qed.

Lemma scan_blank_line l rest bos :
  ~ In NL l ->
  scan_at blank_line bos (l ++ rest) = map Lit l ++ scan_at blank_line false rest.
Proof.
  intros H. rewrite scan_blank_bos. induction l as [|x l IH]; [reflexivity|].
  cbn [app map]. rewrite scan_at_cons.
  change (re_match blank_line false (x :: l ++ rest))
    with (if (x =? NL)%N
          then option_map S (greedy isspace (closer NL) false (l ++ rest)) else None).
  destruct (N.eqb_spec x NL) as [->|_]; [destruct H; now left|].
  rewrite IH by (intros Hin; apply H; now right). reflexivity.
Qed.

Lemma greedy_stops c rest bos :
  isspace c = false -> greedy isspace (closer NL) bos (c :: rest) = None.
Proof.
  intros H. cbn [greedy]. rewrite H, closer_cons.
  destruct (N.eqb_spec c NL) as [->|_]; [|reflexivity].
  rewrite isspace_NL in H. discriminate.
Qed.

Lemma scan_newline c rest bos :
  isspace c = false ->
  scan_at blank_line bos (NL :: c :: rest) = Lit NL :: scan_at blank_line false (c :: rest).
Proof.
  intros H. rewrite scan_at_cons.
  change (re_match blank_line bos (NL :: c :: rest))
    with (option_map S (greedy isspace (closer NL) false (c :: rest))).
  now rewrite greedy_stops.
Qed.

Lemma scan_blank c rest bos :
  isspace c = false ->
  scan_at blank_line bos (NL :: NL :: c :: rest)
  = Hit [NL; NL] :: scan_at blank_line false (c :: rest).
Proof.
  intros H. rewrite scan_at_cons.
  change (re_match blank_line bos (NL :: NL :: c :: rest))
    with (option_map S (greedy isspace (closer NL) false (NL :: c :: rest))).
  change (greedy isspace (closer NL) false (NL :: c :: rest))
    with (match greedy isspace (closer NL) false (c :: rest) with
          | Some n => Some (S n)
          | None => closer NL false (NL :: c :: rest)
          end).
  rewrite greedy_stops by exact H. reflexivity.
Qed.

Lemma scan_caption i t s rest bos :
  header_line i -> header_line t -> header_line s ->
  scan_at blank_line bos (caption i t s ++ rest)
  = map Lit (caption i t s) ++ scan_at blank_line false rest.
Proof.
  intros (Hi & _) (Ht & ct & t' & -> & Hct) (Hs & cs & s' & -> & Hcs).
  unfold caption. rewrite !map_app. cbn [map]. rewrite !map_app. cbn [map].
  rewrite <- !app_assoc. cbn [app]. rewrite <- !app_assoc. cbn [app].
  rewrite scan_blank_line by exact Hi.
  rewrite scan_newline by exact Hct.
  change (ct :: t' ++ NL :: cs :: s' ++ rest) with ((ct :: t') ++ NL :: cs :: s' ++ rest).
  rewrite scan_blank_line by exact Ht.
  rewrite scan_newline by exact Hcs.
  change (cs :: s' ++ rest) with ((cs :: s') ++ rest).
  rewrite scan_blank_line by exact Hs.
  cbn [map app]. reflexivity.
Qed.

Lemma pieces_between_nonempty x : pieces_between x <> [].
Proof.
  destruct x as [|[c|m] x]; cbn [pieces_between]; try discriminate.
  now destruct (pieces_between x).
Qed.

Lemma pieces_between_lits l x :
  pieces_between (map Lit l ++ x)
  = (l ++ hd [] (pieces_between x)) :: tl (pieces_between x).
Proof.
  induction l as [|c l IH]; cbn [map app pieces_between].
  - pose proof (pieces_between_nonempty x). now destruct (pieces_between x).
  - rewrite IH. reflexivity.
Qed.

Lemma strip_document body :
  (exists c r, body = c :: r /\ isspace c = false) ->
  (exists r d, body = r ++ [d] /\ isspace d = false) ->
  strip (body ++ [NL]) = body.
Proof.
  intros (c & r & E & Hc) (r' & d & E' & Hd). unfold strip.
  rewrite E. cbn [app]. rewrite lstrip_nonspace by exact Hc.
  change (c :: r ++ [NL]) with ((c :: r) ++ [NL]). rewrite <- E.
  rewrite rstrip_space by apply isspace_NL. rewrite E'. now apply rstrip_nonspace.
Qed.

(** The document of three caption blocks splits into its three blocks. *)
Lemma split_three_captions i1 t1 s1 i2 t2 s2 i3 t3 s3 :
  header_line i1 -> header_line t1 -> text_line s1 ->
  header_line i2 -> header_line t2 -> text_line s2 ->
  header_line i3 -> header_line t3 -> text_line s3 ->
  re_split blank_line
    (strip (three_captions (caption i1 t1 s1) (caption i2 t2 s2) (caption i3 t3 s3)))
  = [caption i1 t1 s1; caption i2 t2 s2; caption i3 t3 s3].
Proof.
  intros Hi1 Ht1 Hs1 Hi2 Ht2 Hs2 Hi3 Ht3 Hs3.
  assert (E : strip (three_captions (caption i1 t1 s1) (caption i2 t2 s2) (caption i3 t3 s3))
    = caption i1 t1 s1 ++ NL :: NL :: caption i2 t2 s2 ++ NL :: NL :: caption i3 t3 s3).
  { unfold three_captions.
    destruct (caption_head i1 t1 s1 Hi1) as (c & r & E1 & Hc).
    destruct (caption_last i3 t3 s3 Hs3) as (r3 & d & E3 & Hd).
    replace (caption i1 t1 s1 ++ NL :: NL :: caption i2 t2 s2 ++ NL :: NL
             :: caption i3 t3 s3 ++ [NL])
      with ((caption i1 t1 s1 ++ NL :: NL :: caption i2 t2 s2 ++ NL :: NL
             :: caption i3 t3 s3) ++ [NL])
      by (rewrite <- !app_assoc; cbn [app]; rewrite <- !app_assoc; reflexivity).
    apply strip_document.
    - rewrite E1. cbn [app]. eauto.
    - rewrite E3. exists (caption i1 t1 s1 ++ NL :: NL :: caption i2 t2 s2 ++ NL :: NL :: r3), d.
      split; [|exact Hd]. rewrite <- !app_assoc. cbn [app]. rewrite <- !app_assoc.
      reflexivity. }
  rewrite E. unfold re_split. rewrite scan_is_scan_at.
  destruct (caption_head i2 t2 s2 Hi2) as (c2 & r2 & E2 & Hc2).
  destruct (caption_head i3 t3 s3 Hi3) as (c3 & r3 & E3 & Hc3).
  rewrite scan_caption by (trivial; apply Hs1).
  rewrite E2 at 1. cbn [app]. rewrite scan_blank by exact Hc2.
  change (c2 :: r2 ++ NL :: NL :: caption i3 t3 s3)
    with ((c2 :: r2) ++ NL :: NL :: caption i3 t3 s3).
  rewrite <- E2. rewrite scan_caption by (trivial; apply Hs2).
  rewrite E3 at 1. rewrite scan_blank by exact Hc3. rewrite <- E3.
  rewrite <- (app_nil_r (caption i3 t3 s3)) at 1.
  rewrite scan_caption by (trivial; apply Hs3).
  rewrite scan_at_nil. cbn [re_match blank_line one]. rewrite app_nil_r.
  rewrite pieces_between_lits. cbn [pieces_between hd tl].
  rewrite pieces_between_lits. cbn [pieces_between hd tl].
  rewrite <- (app_nil_r (map Lit (caption i3 t3 s3))).
  rewrite pieces_between_lits. cbn [pieces_between hd tl]. rewrite !app_nil_r. reflexivity.
Qed.

(** ** The engine on examples

    The values are those of CPython's [re] on the same inputs. *)

Lemma one_never_empty f k bos s : one f k bos s <> Some 0.
Proof.
  unfold one. destruct s as [|c s]; [discriminate|].
  destruct (f c); [|discriminate]. now destruct (k false s).
Qed.

(** No pattern of the program matches the empty string: the scan never meets
    an empty match. *)
Lemma patterns_never_empty ud bos s :
  re_match blank_line bos s <> Some 0
  /\ re_match ws_run bos s <> Some 0
  /\ re_match tag bos s <> Some 0
  /\ re_match brace bos s <> Some 0
  /\ re_match (speaker_label ud) bos s <> Some 0
  /\ re_match square bos s <> Some 0
  /\ re_match paren bos s <> Some 0.
Proof.
  repeat split; try apply one_never_empty.
  unfold speaker_label, lit. cbn [py list_ascii_of_string map app re_match].
  destruct bos; [apply one_never_empty|discriminate].
Qed.

Lemma engine_examples :
  re_sub square [] (py "[a[b]c] x [y]") = py "c] x "
  /\ re_sub tag [] (py "<><b>x<a<>") = py "<>x"
  /\ re_sub ws_run [SP] (py "  a " ++ [9%N; NL] ++ py " b ") = py " a b "
  /\ re_split blank_line (py "a" ++ [NL; NL; NL; NL] ++ py "b") = [py "a"; py "b"]
  /\ re_split blank_line (py "a" ++ [NL; SP; NL] ++ py "b" ++ [NL] ++ py "c")
     = [py "a"; py "b" ++ [NL] ++ py "c"]
  /\ re_split blank_line [] = [[]]
  /\ re_sub (speaker_label ascii_only) [] (py "Speaker 12:  Speaker 2: x") = py "Speaker 2: x"
  /\ split_ws (py "  a  bc d ") = [py "a"; py "bc"; py "d"]
  /\ split_on NL (py "a" ++ [NL]) = [py "a"; []]
  /\ strip (py "  a b  ") = py "a b".
Proof. repeat split; vm_compute; reflexivity. Qed.

(** * The claims *)

(** C4: a flat text whose length is at or under the threshold is returned
    unchanged by [add_paragraph_breaks], as the sole paragraph: nothing, and
    so no double newline, is inserted.  The default threshold is 500. *)
Theorem short_text_unchanged text thr :
  (Z.of_nat (length text) <= thr)%Z -> add_paragraph_breaks text thr = text.
Proof.
  intros H. unfold add_paragraph_breaks.
  apply Z.leb_le in H. now rewrite H.
Qed.

Lemma short_text_unchanged_witness :
  add_paragraph_breaks (py "Welcome back") 500 = py "Welcome back".
Proof. apply (short_text_unchanged (py "Welcome back") 500). vm_compute. discriminate. Defined.



(** C1: in the output of [parse_srt_to_text], whatever the document, two
    whitespace characters side by side are two newlines and the character
    after them is not whitespace: a run of whitespace is a single character
    or the paragraph separator, exactly two newlines.  So the output has no
    two consecutive spaces and no three consecutive newlines. *)
Theorem output_well_spaced ud doc :
  well_spaced (parse_srt_to_text ud doc)
  /\ no_double_space (parse_srt_to_text ud doc)
  /\ no_triple_newline (parse_srt_to_text ud doc).
Proof.
  assert (H : well_spaced (parse_srt_to_text ud doc)).
  { unfold parse_srt_to_text. cbv zeta.
    apply add_paragraph_breaks_well_spaced, normalized_no_ws_pair. }
  split; [exact H|]. split.
  - now apply well_spaced_no_double_space.
  - now apply well_spaced_no_triple_newline.
Qed.

Lemma output_well_spaced_witness :
  (exists a b, parse_srt_to_text ascii_only long_doc = a ++ NL :: NL :: b)
  /\ well_spaced (parse_srt_to_text ascii_only long_doc).
Proof.
  split.
  - exists (firstn 499 (parse_srt_to_text ascii_only long_doc)),
           (skipn 501 (parse_srt_to_text ascii_only long_doc)).
    vm_compute. reflexivity.
  - apply (output_well_spaced ascii_only long_doc).
Defined.

(** C6: a caption block with fewer than 3 lines is skipped: the loop body
    leaves [text_lines] as it was, so the block adds nothing to the output,
    wherever it stands among the blocks, and nothing is raised.  The document
    of an index line and a time-range line alone gives the empty output. *)
Theorem short_block_skipped ud :
  (forall text_lines block,
      length (split_on NL (strip block)) < 3 ->
      parse_block ud text_lines block = text_lines)
  /\ (forall pre block post acc,
         length (split_on NL (strip block)) < 3 ->
         fold_left (parse_block ud) (pre ++ block :: post) acc
         = fold_left (parse_block ud) (pre ++ post) acc)
  /\ re_split blank_line (strip two_line_doc)
     = [py "1" ++ NL :: py "00:00:00,000 --> 00:00:01,000"]
  /\ parse_srt_to_text ud two_line_doc = [].
Proof.
  split; [exact (parse_block_short ud)|]. split.
  - intros pre block post acc H.
    rewrite !fold_parse_block_app. cbn [fold_left].
    now rewrite parse_block_short.
  - split; vm_compute; reflexivity.
Qed.

Lemma short_block_skipped_witness :
  parse_block ascii_only [py "Hello"] (py "1" ++ NL :: py "00:00:00,000 --> 00:00:01,000")
  = [py "Hello"].
Proof.
  apply (proj1 (short_block_skipped ascii_only)). vm_compute. lia.
Defined.

Lemma literal_text_line (s : str) c s' r d :
  s = c :: s' -> s = r ++ [d] ->
  forallb (not_char NL) s = true -> isspace c = false -> isspace d = false ->
  text_line s.
Proof.
  intros E1 E2 Hnl Hc Hd. split; [split|].
  - now apply not_char_all.
  - now exists c, s'.
  - now exists r, d.
Qed.

(** C7: for a document of three consecutive valid caption blocks (any index
    and time-range lines) whose text lines are 'Welcome to the CCNA
    course.', 'Today we'll cover network fundamentals.' and 'The OSI model
    has seven layers.', [parse_srt_to_text] returns the three sentences
    joined by single spaces: one paragraph, with no newline in it. *)
Theorem three_blocks_one_paragraph ud i1 t1 i2 t2 i3 t3 :
  header_line i1 -> header_line t1 ->
  header_line i2 -> header_line t2 ->
  header_line i3 -> header_line t3 ->
  let doc := three_captions
               (caption i1 t1 (py "Welcome to the CCNA course."))
               (caption i2 t2 (py "Today we'll cover network fundamentals."))
               (caption i3 t3 (py "The OSI model has seven layers.")) in
  parse_srt_to_text ud doc
  = py "Welcome to the CCNA course. Today we'll cover network fundamentals. The OSI model has seven layers."
  /\ ~ In NL (parse_srt_to_text ud doc).
Proof.
  intros Hi1 Ht1 Hi2 Ht2 Hi3 Ht3 doc.
  assert (Hs1 : text_line (py "Welcome to the CCNA course.")).
  { apply (literal_text_line _ (ch "W") (py "elcome to the CCNA course.")
             (py "Welcome to the CCNA course") (ch ".")); reflexivity. }
  assert (Hs2 : text_line (py "Today we'll cover network fundamentals.")).
  { apply (literal_text_line _ (ch "T") (py "oday we'll cover network fundamentals.")
             (py "Today we'll cover network fundamentals") (ch ".")); reflexivity. }
  assert (Hs3 : text_line (py "The OSI model has seven layers.")).
  { apply (literal_text_line _ (ch "T") (py "he OSI model has seven layers.")
             (py "The OSI model has seven layers") (ch ".")); reflexivity. }
  assert (E : parse_srt_to_text ud doc
    = py "Welcome to the CCNA course. Today we'll cover network fundamentals. The OSI model has seven layers.").
  { unfold parse_srt_to_text, doc. cbv zeta.
    rewrite split_three_captions by trivial. cbn [fold_left].
    rewrite !parse_caption by (trivial; vm_compute; reflexivity).
    vm_compute. reflexivity. }
  split; [exact E|]. rewrite E. apply not_char_all. reflexivity.
Qed.

Lemma three_blocks_one_paragraph_witness :
  parse_srt_to_text ascii_only three_blocks
  = py "Welcome to the CCNA course. Today we'll cover network fundamentals. The OSI model has seven layers."
  /\ ~ In NL (parse_srt_to_text ascii_only three_blocks).
Proof.
  assert (H : forall l c l', l = c :: l' -> forallb (not_char NL) l = true ->
                             isspace c = false -> header_line l).
  { intros l c l' E Hnl Hc. split; [now apply not_char_all|now exists c, l']. }
  apply (three_blocks_one_paragraph ascii_only
           (py "1") (py "00:00:00,000 --> 00:00:03,500")
           (py "2") (py "00:00:03,500 --> 00:00:07,000")
           (py "3") (py "00:00:07,000 --> 00:00:11,500")).
  - apply (H _ (ch "1") []); reflexivity.
  - apply (H _ (ch "0") (py "0:00:00,000 --> 00:00:03,500")); reflexivity.
  - apply (H _ (ch "2") []); reflexivity.
  - apply (H _ (ch "0") (py "0:00:03,500 --> 00:00:07,000")); reflexivity.
  - apply (H _ (ch "3") []); reflexivity.
  - apply (H _ (ch "0") (py "0:00:07,000 --> 00:00:11,500")); reflexivity.
Defined.

Lemma fold_short_blocks ud blocks : forall acc,
  Forall (fun b => length (split_on NL (strip b)) < 3) blocks ->
  fold_left (parse_block ud) blocks acc = acc.
Proof.
  induction blocks as [|b blocks IH]; intros acc H; [reflexivity|].
  inversion H as [|? ? Hb Hrest]; subst. cbn [fold_left].
  rewrite parse_block_short by exact Hb. now apply IH.
Qed.

(** C8: [parse_srt_to_text] is a total function: it has a result on every
    document and no error to return.  For an empty or all-whitespace
    document, and for any document without a block of three lines or more,
    the result is the empty string. *)
Theorem blank_document_empty ud doc :
  (forallb isspace doc = true -> parse_srt_to_text ud doc = [])
  /\ (Forall (fun b => length (split_on NL (strip b)) < 3)
             (re_split blank_line (strip doc)) ->
      parse_srt_to_text ud doc = []).
Proof.
  assert (H2 : Forall (fun b => length (split_on NL (strip b)) < 3)
                      (re_split blank_line (strip doc)) ->
               parse_srt_to_text ud doc = []).
  { intros H. unfold parse_srt_to_text. cbv zeta.
    now rewrite fold_short_blocks. }
  split; [|exact H2].
  intros H. apply H2. rewrite strip_spaces by exact H.
  vm_compute. repeat constructor.
Qed.

Lemma blank_document_empty_witness :
  parse_srt_to_text ascii_only [SP; NL; 9%N; NL; SP] = []
  /\ parse_srt_to_text ascii_only [] = [].
Proof.
  split.
  - apply (proj1 (blank_document_empty ascii_only [SP; NL; 9%N; NL; SP])).
    vm_compute. reflexivity.
  - apply (proj1 (blank_document_empty ascii_only [])). reflexivity.
Defined.




(** * Further properties *)

(** ** Normalising whitespace *)

Lemma lstrip_app_spaces pre s : forallb isspace pre = true -> lstrip (pre ++ s) = lstrip s.
Proof.
  induction pre as [|c pre IH]; [reflexivity|].
  cbn [forallb app lstrip]. intros H. apply andb_prop in H. destruct H as [-> H]. now apply IH.
Qed.

Lemma lstrip_app_keep u v : lstrip u <> [] -> lstrip (u ++ v) = lstrip u ++ v.
Proof.
  induction u as [|c u IH]; [now intros []|].
  cbn [app lstrip]. destruct (isspace c); [exact IH|reflexivity].
Qed.

Lemma rstrip_app_keep a x : rstrip x <> [] -> rstrip (a ++ x) = a ++ rstrip x.
Proof.
  unfold rstrip. intros H. rewrite rev_app_distr.
  rewrite lstrip_app_keep.
  - now rewrite rev_app_distr, rev_involutive.
  - intros E. apply H. now rewrite E.
Qed.

Lemma rstrip_nil : rstrip [] = [].
Proof. reflexivity. Qed.

Lemma rstrip_word w : is_word w = true -> rstrip w = w.
Proof.
  intros Hw. destruct (exists_last (l := w)) as (r & d & ->); [now destruct w|].
  apply rstrip_nonspace. apply is_word_nonspace in Hw.
  rewrite forallb_app in Hw. apply andb_prop in Hw. destruct Hw as [_ Hd].
  cbn [forallb] in Hd. rewrite andb_true_r in Hd. now apply nonspace_false.
Qed.

(** A string that does not start with whitespace is a word followed by
    nothing or by a whitespace character. *)
Lemma word_prefix c s :
  isspace c = false ->
  exists w rest, c :: s = w ++ rest /\ is_word w = true
                 /\ (rest = [] \/ exists d r, rest = d :: r /\ isspace d = true).
Proof.
  revert c. induction s as [|x s IH]; intros c Hc.
  - exists [c], []. repeat split; [|now left]. cbn. now rewrite (proj2 (nonspace_false c)).
  - destruct (isspace x) eqn:Hx.
    + exists [c], (x :: s). repeat split; [|right; eauto].
      cbn. now rewrite (proj2 (nonspace_false c)).
    + destruct (IH x Hx) as (w & rest & E & Hw & Hrest).
      exists (c :: w), rest. repeat split; trivial.
      * cbn [app]. now rewrite E.
      * rewrite is_word_cons, (proj2 (nonspace_false c)) by trivial.
        now apply is_word_nonspace.
Qed.

Lemma scan_ws_bos bos s : scan_at ws_run bos s = scan_at ws_run false s.
Proof. destruct s as [|c s]; [reflexivity|]. now rewrite !scan_at_cons. Qed.

Lemma collapse_bos bos s : sub_at ws_run [SP] bos s = sub_at ws_run [SP] false s.
Proof. unfold sub_at. now rewrite scan_ws_bos. Qed.

Lemma collapse_word w rest bos :
  forallb nonspace w = true ->
  sub_at ws_run [SP] bos (w ++ rest) = w ++ sub_at ws_run [SP] false rest.
Proof.
  rewrite collapse_bos. induction w as [|c w IH]; [reflexivity|].
  cbn [forallb app]. intros H. apply andb_prop in H. destruct H as [Hc Hw].
  apply nonspace_false in Hc. rewrite collapse_cons, Hc. now rewrite IH.
Qed.

Lemma split_ws_lstrip s : split_ws (lstrip s) = split_ws s.
Proof.
  induction s as [|c s IH]; [reflexivity|].
  cbn [lstrip]. destruct (isspace c) eqn:Hc; [|reflexivity].
  now rewrite split_ws_space.
Qed.

Lemma lstrip_idem s : lstrip (lstrip s) = lstrip s.
Proof.
  destruct (lstrip s) as [|c t] eqn:E; [reflexivity|].
  now rewrite (lstrip_nonspace c t (lstrip_head _ _ _ E)).
Qed.

Lemma split_ws_nil_lstrip s : split_ws s = [] -> lstrip s = [].
Proof.
  intros H. destruct (lstrip s) as [|c t] eqn:E; [reflexivity|].
  rewrite <- split_ws_lstrip, E in H.
  destruct (word_prefix c t (lstrip_head _ _ _ E)) as (w & rest & E' & Hw & Hrest).
  rewrite E' in H. destruct Hrest as [->|(d & r & -> & Hd)].
  - rewrite app_nil_r, split_ws_word in H by trivial. discriminate.
  - rewrite split_ws_run in H by trivial. discriminate.
Qed.

(** Collapsing the runs of whitespace of a string that does not start with
    whitespace, and trimming the right end, gives its words joined by single
    spaces. *)
Lemma collapse_rstrip : forall s,
  lstrip s = s ->
  rstrip (sub_at ws_run [SP] false s) = join [SP] (split_ws s).
Proof.
  induction s as [s IH] using str_length_ind. intros Hs.
  destruct s as [|c s]; [reflexivity|].
  assert (Hc : isspace c = false).
  { cbn [lstrip] in Hs. destruct (isspace c) eqn:Hc; [|reflexivity].
    pose proof (lstrip_length s) as Hl. rewrite Hs in Hl. cbn [length] in Hl. lia. }
  destruct (word_prefix c s Hc) as (w & rest & E & Hw & Hrest). rewrite E.
  rewrite collapse_word by now apply is_word_nonspace.
  destruct Hrest as [->|(d & r & -> & Hd)].
  - cbn [sub_at scan_at]. rewrite collapse_nil, !app_nil_r.
    rewrite split_ws_word by trivial. now apply rstrip_word.
  - rewrite split_ws_run by trivial. rewrite collapse_cons, Hd.
    assert (Hlen : length (lstrip r) < length (c :: s)).
    { rewrite E, length_app. cbn [length]. pose proof (lstrip_length r).
      destruct w; [discriminate|]. cbn [length]. lia. }
    specialize (IH (lstrip r) Hlen (lstrip_idem r)).
    rewrite split_ws_lstrip in IH.
    destruct (split_ws r) as [|w2 ws] eqn:Er.
    + rewrite (split_ws_nil_lstrip r Er), collapse_nil.
      change (w ++ [SP]) with (w ++ [SP]). rewrite rstrip_space by apply isspace_SP.
      now apply rstrip_word.
    + change (w ++ SP :: sub_at ws_run [SP] false (lstrip r))
        with (w ++ [SP] ++ sub_at ws_run [SP] false (lstrip r)).
      rewrite app_assoc. rewrite rstrip_app_keep.
      * rewrite IH, <- app_assoc. reflexivity.
      * rewrite IH. destruct ws as [|w3 ws]; cbn [join].
        -- pose proof (split_ws_words r) as Hall. rewrite Er in Hall.
           inversion Hall as [|? ? Hw2 _]; subst. now destruct w2.
        -- pose proof (split_ws_words r) as Hall. rewrite Er in Hall.
           inversion Hall as [|? ? Hw2 _]; subst. now destruct w2.
Qed.

Lemma collapse_stripped t :
  lstrip t = t -> lstrip (sub_at ws_run [SP] false t) = sub_at ws_run [SP] false t.
Proof.
  destruct t as [|d t]; intros Ht; [reflexivity|].
  assert (Hd : isspace d = false).
  { cbn [lstrip] in Ht. destruct (isspace d) eqn:Hd; [|reflexivity].
    pose proof (lstrip_length t) as Hl. rewrite Ht in Hl. cbn [length] in Hl. lia. }
  rewrite collapse_cons, Hd. now apply lstrip_nonspace.
Qed.

Lemma collapse_lstrip : forall s bos,
  lstrip (sub_at ws_run [SP] bos s) = sub_at ws_run [SP] false (lstrip s).
Proof.
  intros s bos. rewrite collapse_bos.
  destruct s as [|c s]; [reflexivity|].
  rewrite collapse_cons. destruct (isspace c) eqn:Hc.
  - cbn [lstrip]. rewrite isspace_SP, Hc. apply collapse_stripped, lstrip_idem.
  - rewrite lstrip_nonspace by exact Hc. rewrite lstrip_nonspace by exact Hc.
    now rewrite collapse_cons, Hc.
Qed.

(** [re.sub(r'\s+', ' ', s).strip()] is [' '.join(s.split())]. *)
Lemma normalize_words s :
  strip (re_sub ws_run [SP] s) = join [SP] (split_ws s).
Proof.
  unfold strip. rewrite re_sub_sub_at, collapse_lstrip.
  rewrite collapse_rstrip by apply lstrip_idem. now rewrite split_ws_lstrip.
Qed.

(** ** Words across a join *)

Lemma split_ws_cons_nonspace c s : isspace c = false -> split_ws (c :: s) <> [].
Proof.
  intros Hc. cbn [split_ws]. rewrite Hc. destruct s as [|d s]; [discriminate|].
  destruct (isspace d); [discriminate|]. now destruct (split_ws (d :: s)).
Qed.

Lemma split_ws_then_space x d s :
  isspace x = false -> isspace d = true ->
  split_ws (x :: d :: s) = [x] :: split_ws (d :: s).
Proof. intros Hx Hd. cbn [split_ws]. now rewrite Hx, Hd. Qed.

Lemma split_ws_then_word x d s :
  isspace x = false -> isspace d = false ->
  split_ws (x :: d :: s) =
  match split_ws (d :: s) with
  | w :: ws => (x :: w) :: ws
  | [] => [[x]]
  end.
Proof. intros Hx Hd. cbn [split_ws]. now rewrite Hx, Hd. Qed.

Lemma split_ws_app_space a c b :
  isspace c = true -> split_ws (a ++ c :: b) = split_ws a ++ split_ws b.
Proof.
  intros Hc. induction a as [|x a IH].
  - cbn [app]. now rewrite split_ws_space.
  - destruct (isspace x) eqn:Hx.
    + cbn [app]. now rewrite !split_ws_space.
    + destruct a as [|y a].
      * cbn [app]. rewrite split_ws_then_space by trivial.
        rewrite split_ws_space by trivial. cbn [split_ws]. now rewrite Hx.
      * cbn [app] in *. destruct (isspace y) eqn:Hy.
        -- rewrite !split_ws_then_space by trivial. now rewrite IH.
        -- rewrite !split_ws_then_word by trivial. rewrite IH.
           pose proof (split_ws_cons_nonspace y a Hy) as Hne.
           destruct (split_ws (y :: a)); [congruence|reflexivity].
Qed.

Lemma split_ws_join_any l : split_ws (join [SP] l) = flat_map split_ws l.
Proof.
  induction l as [|x l IH]; [reflexivity|].
  destruct l as [|y l].
  - cbn [join flat_map]. now rewrite app_nil_r.
  - rewrite join_cons2. cbn [app]. rewrite split_ws_app_space by apply isspace_SP.
    now rewrite IH.
Qed.

Lemma join_words_nonempty ws :
  ws <> [] -> Forall (fun w => is_word w = true) ws -> join [SP] ws <> [].
Proof.
  intros Hne Hall. destruct (join_paragraph_head ws (conj Hne Hall)) as (c & t & -> & _).
  discriminate.
Qed.

Lemma split_ws_add_paragraph_breaks text thr :
  split_ws (add_paragraph_breaks text thr) = split_ws text.
Proof.
  destruct (Z.le_gt_cases (Z.of_nat (length text)) thr) as [Hle|Hgt].
  - now rewrite add_paragraph_breaks_short.
  - rewrite add_paragraph_breaks_long by trivial.
    rewrite split_ws_paragraphs by apply groups_paragraphs, split_ws_words.
    apply groups_spec.
Qed.


(** ** Strings of words *)

Lemma join_words_stripped ws :
  Forall (fun w => is_word w = true) ws -> strip (join [SP] ws) = join [SP] ws.
Proof.
  intros Hall. destruct ws as [|w ws]; [reflexivity|].
  assert (Hp : is_paragraph (w :: ws)) by (split; [discriminate|trivial]).
  destruct (join_paragraph_head _ Hp) as (c & t & E & Hc).
  unfold strip. rewrite E, lstrip_nonspace, <- E by exact Hc.
  destruct (join_last (w :: ws)) as (pre & E'); [discriminate|]. rewrite E'.
  assert (Hl : is_word (last (w :: ws) []) = true).
  { rewrite Forall_forall in Hall. apply Hall.
    destruct (exists_last (l := w :: ws)) as (r & d & ->); [discriminate|].
    rewrite last_last. apply in_or_app. right. now left. }
  rewrite rstrip_app_keep; rewrite rstrip_word by exact Hl; trivial.
  now destruct (last (w :: ws) []).
Qed.

Lemma join_words_spaces ws c :
  Forall (fun w => is_word w = true) ws ->
  In c (join [SP] ws) -> isspace c = true -> c = SP.
Proof.
  intros Hall. induction ws as [|w ws IH]; [contradiction|].
  inversion Hall as [|? ? Hw Hws]; subst.
  assert (Hin : In c w -> isspace c = true -> c = SP).
  { intros Hc Hsp. apply is_word_nonspace in Hw. rewrite forallb_forall in Hw.
    specialize (Hw _ Hc). apply nonspace_false in Hw. congruence. }
  destruct ws as [|w2 ws]; [exact Hin|].
  rewrite join_cons2. intros H. apply in_app_or in H. destruct H as [H|H]; [now apply Hin|].
  cbn [app] in H. destruct H as [<-|H]; [reflexivity|]. now apply IH.
Qed.

Lemma join_app sep (a b : list str) :
  a <> [] -> b <> [] -> join sep (a ++ b) = join sep a ++ sep ++ join sep b.
Proof.
  intros Ha Hb. induction a as [|x a IH]; [congruence|].
  destruct a as [|y a].
  - cbn [app join]. destruct b; [congruence|reflexivity].
  - change ((x :: y :: a) ++ b) with (x :: (y :: a) ++ b).
    cbn [app] in *. rewrite !join_cons2. rewrite IH by discriminate.
    now rewrite <- !app_assoc.
Qed.

(** Joining joined words is joining the words. *)
Lemma join_join wss :
  Forall is_paragraph wss -> join [SP] (map (join [SP]) wss) = join [SP] (concat wss).
Proof.
  intros Hall. induction wss as [|ws wss IH]; [reflexivity|].
  inversion Hall as [|? ? [Hne Hws] Hrest]; subst.
  destruct wss as [|ws2 wss].
  - cbn [map join concat]. now rewrite app_nil_r.
  - cbn [map concat]. rewrite join_cons2. cbn [map concat] in IH. rewrite (IH Hrest).
    inversion Hrest as [|? ? [Hne2 _] _]; subst.
    rewrite (join_app [SP] ws (ws2 ++ concat wss)); [reflexivity|exact Hne|].
    destruct ws2; [congruence|discriminate].
Qed.

Lemma strip_ends s c t r d :
  s = c :: t -> s = r ++ [d] -> isspace c = false -> isspace d = false -> strip s = s.
Proof.
  intros E E' Hc Hd. unfold strip. rewrite E, lstrip_nonspace, <- E by exact Hc.
  rewrite E'. now apply rstrip_nonspace.
Qed.

Lemma word_last w : is_word w = true -> exists r d, w = r ++ [d] /\ isspace d = false.
Proof.
  intros Hw. destruct (exists_last (l := w)) as (r & d & ->); [now destruct w|].
  exists r, d. split; [reflexivity|]. apply is_word_nonspace in Hw.
  rewrite forallb_app in Hw. apply andb_prop in Hw. destruct Hw as [_ Hd].
  cbn [forallb] in Hd. rewrite andb_true_r in Hd. now apply nonspace_false.
Qed.

Lemma join_paragraph_last ps :
  is_paragraph ps -> exists r d, join [SP] ps = r ++ [d] /\ isspace d = false.
Proof.
  intros [Hne Hall]. destruct (join_last ps Hne) as (pre & E).
  assert (Hl : is_word (last ps []) = true).
  { rewrite Forall_forall in Hall. apply Hall.
    destruct (exists_last Hne) as (r & d & ->).
    rewrite last_last. apply in_or_app. right. now left. }
  destruct (word_last _ Hl) as (r & d & Er & Hd).
  exists (pre ++ r), d. split; [|exact Hd]. now rewrite E, Er, app_assoc.
Qed.

Lemma join_paragraphs_last pss :
  pss <> [] -> Forall is_paragraph pss ->
  exists r d, join [NL; NL] (map (join [SP]) pss) = r ++ [d] /\ isspace d = false.
Proof.
  intros Hne Hall. induction pss as [|ps pss IH]; [congruence|].
  inversion Hall as [|? ? Hps Hrest]; subst.
  destruct pss as [|qs pss].
  - cbn [map join]. now apply join_paragraph_last.
  - destruct (IH ltac:(discriminate) Hrest) as (r & d & E & Hd).
    cbn [map] in *. rewrite join_cons2, E.
    exists (join [SP] ps ++ [NL; NL] ++ r), d. split; [|exact Hd].
    now rewrite <- !app_assoc.
Qed.

(** ** The segments of a document *)

Lemma clean_subtitle_text_words ud text :
  clean_subtitle_text ud text
  = join [SP] (split_ws (re_sub paren [] (re_sub square []
      (re_sub (speaker_label ud) [] (re_sub brace [] (re_sub tag [] text)))))).
Proof. unfold clean_subtitle_text. cbv zeta. apply normalize_words. Qed.

Lemma parse_block_append ud acc block :
  parse_block ud acc block = acc ++ parse_block ud [] block.
Proof.
  unfold parse_block. destruct (strip block) as [|c b]; [now rewrite app_nil_r|].
  cbv zeta. destruct (3 <=? length (split_on NL (c :: b))); [|now rewrite app_nil_r].
  destruct (clean_subtitle_text ud (join [SP] (skipn 2 (split_on NL (c :: b)))));
    [now rewrite app_nil_r|reflexivity].
Qed.

Lemma fold_parse_block ud blocks : forall acc,
  fold_left (parse_block ud) blocks acc = acc ++ flat_map (parse_block ud []) blocks.
Proof.
  induction blocks as [|b blocks IH]; intros acc; [now rewrite app_nil_r|].
  cbn [fold_left flat_map]. rewrite IH, (parse_block_append ud acc b).
  now rewrite <- app_assoc.
Qed.

(** What a block adds is nothing, or one non-empty string of words. *)
Lemma parse_block_segment ud block :
  Forall (fun seg => is_paragraph (split_ws seg) /\ seg = join [SP] (split_ws seg))
         (parse_block ud [] block).
Proof.
  unfold parse_block. destruct (strip block) as [|c b]; [constructor|].
  cbv zeta. destruct (3 <=? length (split_on NL (c :: b))); [|constructor].
  destruct (clean_subtitle_text ud (join [SP] (skipn 2 (split_on NL (c :: b)))))
    as [|x seg] eqn:E; [constructor|].
  constructor; [|constructor]. rewrite clean_subtitle_text_words in E.
  rewrite <- E. rewrite split_ws_join by apply split_ws_words. split; [|reflexivity].
  split; [|apply split_ws_words]. intros H. rewrite H in E. discriminate.
Qed.

Lemma segments_form ud doc :
  Forall (fun seg => is_paragraph (split_ws seg) /\ seg = join [SP] (split_ws seg))
         (segments ud doc).
Proof.
  unfold segments. rewrite fold_parse_block. cbn [app].
  induction (re_split blank_line (strip doc)) as [|b bs IH]; [constructor|].
  cbn [flat_map]. apply Forall_app. split; [apply parse_block_segment|exact IH].
Qed.

(** The flat text is the segments joined by single spaces: normalising it
    once more changes nothing. *)
Lemma flat_text_is_joined_segments ud doc :
  strip (re_sub ws_run [SP] (join [SP] (segments ud doc))) = join [SP] (segments ud doc).
Proof.
  rewrite normalize_words, split_ws_join_any.
  pose proof (segments_form ud doc) as H.
  induction (segments ud doc) as [|seg segs IH]; [reflexivity|].
  inversion H as [|? ? [Hp Hseg] Hrest]; subst.
  assert (E : forall l,
    Forall (fun seg => is_paragraph (split_ws seg) /\ seg = join [SP] (split_ws seg)) l ->
    join [SP] l = join [SP] (concat (map split_ws l))
    /\ Forall is_paragraph (map split_ws l)).
  { clear. intros l Hl.
    assert (Hps : Forall is_paragraph (map split_ws l)).
    { rewrite Forall_forall in *. intros p Hp. apply in_map_iff in Hp.
      destruct Hp as (x & <- & Hx). now apply Hl. }
    split; [|exact Hps]. rewrite <- join_join by exact Hps. rewrite map_map.
    f_equal. rewrite <- (map_id l) at 1. apply map_ext_in. intros x Hx.
    rewrite Forall_forall in Hl. now apply Hl. }
  destruct (E (seg :: segs) H) as (-> & _). now rewrite flat_map_concat_map.
Qed.

(** ** Subsequences *)

Lemma subseq_refl s : subseq s s.
Proof. induction s; [constructor|now apply subseq_take]. Qed.

Lemma subseq_trans a b c : subseq a b -> subseq b c -> subseq a c.
Proof.
  intros Hab Hbc. revert a Hab. induction Hbc as [b|x b c _ IH|x b c _ IH]; intros a Hab.
  - inversion Hab; subst. constructor.
  - apply subseq_skip. now apply IH.
  - inversion Hab as [|? ? ? H|? ? ? H]; subst.
    + constructor.
    + apply subseq_skip. now apply IH.
    + apply subseq_take. now apply IH.
Qed.

Lemma subseq_app a a' b b' : subseq a a' -> subseq b b' -> subseq (a ++ b) (a' ++ b').
Proof.
  intros Ha Hb. induction Ha as [l|x a l _ IH|x a l _ IH]; cbn [app].
  - induction l as [|y l IH]; [exact Hb|]. cbn [app]. now apply subseq_skip.
  - now apply subseq_skip.
  - now apply subseq_take.
Qed.

Lemma subseq_middle pre s post : subseq s (pre ++ s ++ post).
Proof.
  change s with ([] ++ s) at 1. apply subseq_app; [constructor|].
  rewrite <- (app_nil_r s) at 1. apply subseq_app; [apply subseq_refl|constructor].
Qed.

Lemma subseq_filter f a b : subseq a b -> subseq (filter f a) (filter f b).
Proof.
  induction 1 as [l|x a l _ IH|x a l _ IH]; cbn [filter].
  - constructor.
  - destruct (f x); [now apply subseq_skip|exact IH].
  - destruct (f x); [now apply subseq_take|exact IH].
Qed.

Lemma subseq_length a b : subseq a b -> length a <= length b.
Proof. induction 1; cbn [length]; lia. Qed.

(** A removal keeps a subsequence of the string. *)
Lemma erase_subseq p bos s : subseq (sub_at p [] bos s) s.
Proof.
  rewrite <- (scan_at_text p s bos) at 2. unfold sub_at.
  induction (scan_at p bos s) as [|[c|m] l IH]; cbn [flat_map put piece_text app].
  - constructor.
  - now apply subseq_take.
  - change (flat_map (put []) l) with ([] ++ flat_map (put []) l).
    apply subseq_app; [constructor|exact IH].
Qed.

Lemma strip_subseq s : subseq (strip s) s.
Proof.
  destruct (strip_middle s) as (pre & post & E). rewrite E at 2. apply subseq_middle.
Qed.

Lemma filter_nonspace_space c s :
  isspace c = true -> filter nonspace (c :: s) = filter nonspace s.
Proof. intros H. cbn [filter]. unfold nonspace at 1. now rewrite H. Qed.

Lemma filter_nonspace_word c s :
  isspace c = false -> filter nonspace (c :: s) = c :: filter nonspace s.
Proof. intros H. cbn [filter]. unfold nonspace at 1. now rewrite H. Qed.

Lemma filter_nonspace_spaces pre s :
  forallb isspace pre = true -> filter nonspace (pre ++ s) = filter nonspace s.
Proof.
  induction pre as [|c pre IH]; [reflexivity|].
  cbn [forallb app]. intros H. apply andb_prop in H. destruct H as [Hc H].
  rewrite filter_nonspace_space by exact Hc. now apply IH.
Qed.

Lemma filter_nonspace_lstrip s : filter nonspace (lstrip s) = filter nonspace s.
Proof.
  destruct (lstrip_suffix s) as (pre & E & Hpre). rewrite E at 2.
  now rewrite filter_nonspace_spaces.
Qed.

(** Collapsing whitespace keeps every other character. *)
Lemma collapse_nonspace : forall s bos,
  filter nonspace (sub_at ws_run [SP] bos s) = filter nonspace s.
Proof.
  induction s as [s IH] using str_length_ind. intros bos.
  destruct s as [|c s]; [reflexivity|].
  rewrite collapse_cons. destruct (isspace c) eqn:Hc.
  - rewrite !filter_nonspace_space by (trivial; apply isspace_SP). rewrite IH.
    + apply filter_nonspace_lstrip.
    + pose proof (lstrip_length s). cbn [length]. lia.
  - rewrite !filter_nonspace_word by trivial. f_equal. apply IH. cbn [length]. lia.
Qed.

Lemma collapse_length : forall s bos, length (sub_at ws_run [SP] bos s) <= length s.
Proof.
  induction s as [s IH] using str_length_ind. intros bos.
  destruct s as [|c s]; [reflexivity|].
  rewrite collapse_cons. destruct (isspace c); cbn [length].
  - pose proof (lstrip_length s) as Hl.
    specialize (IH (lstrip s) ltac:(cbn [length]; lia) false). lia.
  - specialize (IH s ltac:(cbn [length]; lia) false). lia.
Qed.

Lemma concat_split_ws s : concat (split_ws s) = filter nonspace s.
Proof.
  induction s as [|c s IH]; [reflexivity|].
  destruct (isspace c) eqn:Hc.
  - now rewrite split_ws_space, filter_nonspace_space.
  - rewrite filter_nonspace_word by trivial. destruct s as [|d s].
    + cbn [split_ws]. now rewrite Hc.
    + destruct (isspace d) eqn:Hd.
      * rewrite split_ws_then_space by trivial. cbn [concat app]. now rewrite IH.
      * rewrite split_ws_then_word by trivial. rewrite <- IH.
        pose proof (split_ws_cons_nonspace d s Hd).
        destruct (split_ws (d :: s)); [congruence|reflexivity].
Qed.

Lemma filter_nonspace_join l :
  filter nonspace (join [SP] l) = filter nonspace (concat l).
Proof.
  rewrite <- !concat_split_ws, split_ws_join_any.
  induction l as [|x l IH]; [reflexivity|].
  cbn [flat_map concat]. rewrite concat_app, IH, !concat_split_ws.
  now rewrite filter_app.
Qed.

Lemma filter_nonspace_split_on s :
  filter nonspace (concat (split_on NL s)) = filter nonspace s.
Proof.
  induction s as [|c s IH]; [reflexivity|].
  cbn [split_on]. destruct (N.eqb_spec c NL) as [->|Hc].
  - cbn [concat app]. rewrite filter_nonspace_space by apply isspace_NL. exact IH.
  - destruct (split_on NL s) as [|x l]; cbn [concat app] in *;
      destruct (isspace c) eqn:Hs.
    + rewrite !(filter_nonspace_space c) by exact Hs. exact IH.
    + rewrite !(filter_nonspace_word c) by exact Hs. now rewrite IH.
    + rewrite !(filter_nonspace_space c) by exact Hs. exact IH.
    + rewrite !(filter_nonspace_word c) by exact Hs. now rewrite IH.
Qed.

Lemma subseq_skipn_concat n (l : list str) : subseq (concat (skipn n l)) (concat l).
Proof.
  rewrite <- (firstn_skipn n l) at 2. rewrite concat_app.
  change (concat (skipn n l)) with ([] ++ concat (skipn n l)).
  apply subseq_app; [constructor|apply subseq_refl].
Qed.

(** The sanitizer only removes characters and rewrites whitespace. *)
Lemma clean_subtitle_text_subseq ud text :
  subseq (filter nonspace (clean_subtitle_text ud text)) (filter nonspace text).
Proof.
  unfold clean_subtitle_text. cbv zeta.
  eapply subseq_trans; [apply subseq_filter, strip_subseq|].
  rewrite re_sub_sub_at, collapse_nonspace. apply subseq_filter.
  rewrite !re_sub_sub_at.
  repeat (eapply subseq_trans; [apply erase_subseq|]). apply subseq_refl.
Qed.

Lemma concat_pieces_between l :
  concat (pieces_between l) = flat_map (put []) l.
Proof.
  induction l as [|[c|m] l IH]; cbn [pieces_between flat_map put app concat].
  - reflexivity.
  - rewrite <- IH. pose proof (pieces_between_nonempty l).
    destruct (pieces_between l); [congruence|reflexivity].
  - exact IH.
Qed.

Lemma parse_block_subseq ud block :
  subseq (filter nonspace (concat (parse_block ud [] block))) (filter nonspace block).
Proof.
  unfold parse_block. destruct (strip block) as [|c b] eqn:E; [constructor|].
  cbv zeta. destruct (3 <=? length (split_on NL (c :: b))); [|constructor].
  destruct (clean_subtitle_text ud (join [SP] (skipn 2 (split_on NL (c :: b)))))
    as [|x seg] eqn:Ec; [constructor|].
  cbn [app concat]. rewrite app_nil_r, <- Ec.
  eapply subseq_trans; [apply clean_subtitle_text_subseq|].
  rewrite filter_nonspace_join.
  eapply subseq_trans; [apply subseq_filter, subseq_skipn_concat|].
  rewrite filter_nonspace_split_on, <- E. apply subseq_filter, strip_subseq.
Qed.

Lemma segments_subseq ud doc :
  subseq (filter nonspace (concat (segments ud doc))) (filter nonspace doc).
Proof.
  unfold segments. rewrite fold_parse_block. cbn [app].
  eapply subseq_trans; [|apply subseq_filter, strip_subseq].
  assert (H : subseq (concat (re_split blank_line (strip doc))) (strip doc)).
  { unfold re_split. rewrite concat_pieces_between, scan_is_scan_at. apply erase_subseq. }
  eapply subseq_trans; [|apply subseq_filter, H]. clear H.
  induction (re_split blank_line (strip doc)) as [|b bs IH]; [constructor|].
  cbn [flat_map concat]. rewrite concat_app, !filter_app.
  apply subseq_app; [apply parse_block_subseq|exact IH].
Qed.

(** ** Whitespace around a document, and the lines of a block *)

Lemma rstrip_app_spaces s post : forallb isspace post = true -> rstrip (s ++ post) = rstrip s.
Proof.
  intros H. unfold rstrip. rewrite rev_app_distr, lstrip_app_spaces; [reflexivity|].
  rewrite forallb_forall in *. intros x Hx. apply H. now apply in_rev.
Qed.

Lemma lstrip_nil_spaces s : lstrip s = [] -> forallb isspace s = true.
Proof.
  intros H. destruct (lstrip_suffix s) as (pre & E & Hpre).
  rewrite H, app_nil_r in E. now subst.
Qed.

Lemma strip_surrounded pre s post :
  forallb isspace pre = true -> forallb isspace post = true ->
  strip (pre ++ s ++ post) = strip s.
Proof.
  intros Hpre Hpost. unfold strip. rewrite lstrip_app_spaces by exact Hpre.
  destruct (lstrip s) as [|c t] eqn:E.
  - rewrite lstrip_spaces; [reflexivity|].
    rewrite forallb_app, Hpost, andb_true_r. now apply lstrip_nil_spaces.
  - rewrite lstrip_app_keep by (rewrite E; discriminate).
    rewrite E. now apply rstrip_app_spaces.
Qed.

Lemma split_on_nonempty sep s : split_on sep s <> [].
Proof.
  destruct s as [|c s]; cbn [split_on]; [discriminate|].
  destruct (c =? sep)%N; [discriminate|]. now destruct (split_on sep s).
Qed.

(** [parse_srt_to_text] on the segments of the document. *)
Lemma parse_srt_to_text_segments ud doc :
  parse_srt_to_text ud doc = add_paragraph_breaks (join [SP] (segments ud doc)) 500.
Proof.
  unfold parse_srt_to_text. cbv zeta. fold (segments ud doc).
  now rewrite flat_text_is_joined_segments.
Qed.

(** ** The transformer as a whole *)

(** X1: the expression [re.sub(r'\s+', ' ', s).strip()], with which both
    [clean_subtitle_text] and [parse_srt_to_text] normalise whitespace,
    gives the whitespace-delimited words of [s] joined by single spaces, for
    every string; applying it twice is applying it once. *)
Theorem normalisation_joins_words s :
  strip (re_sub ws_run [SP] s) = join [SP] (split_ws s)
  /\ strip (re_sub ws_run [SP] (strip (re_sub ws_run [SP] s)))
     = strip (re_sub ws_run [SP] s).
Proof.
  split; [apply normalize_words|].
  rewrite !normalize_words. now rewrite split_ws_join by apply split_ws_words.
Qed.

(** X2: whatever the segment, [clean_subtitle_text] returns a string of
    words separated by single spaces: it has no whitespace at either end,
    no two whitespace characters side by side, and no whitespace character
    other than the space (no newline, no tab). *)
Theorem sanitized_segment_is_words ud text :
  (exists ws, Forall (fun w => is_word w = true) ws
              /\ clean_subtitle_text ud text = join [SP] ws)
  /\ strip (clean_subtitle_text ud text) = clean_subtitle_text ud text
  /\ no_ws_pair (clean_subtitle_text ud text)
  /\ (forall c, In c (clean_subtitle_text ud text) -> isspace c = true -> c = SP).
Proof.
  rewrite clean_subtitle_text_words.
  set (ws := split_ws _). assert (Hws : Forall (fun w => is_word w = true) ws)
    by apply split_ws_words.
  split; [now exists ws|]. split; [now apply join_words_stripped|]. split.
  - rewrite <- (split_ws_join ws Hws), <- normalize_words. apply normalized_no_ws_pair.
  - intros c. now apply join_words_spaces.
Qed.

(** X3: the flat text that [parse_srt_to_text] hands to
    [add_paragraph_breaks] is the sanitized segments joined by single
    spaces: the second whitespace normalisation never changes what the loop
    over the blocks has built. *)
Theorem flat_text_is_segments_joined ud doc :
  parse_srt_to_text ud doc = add_paragraph_breaks (join [SP] (segments ud doc)) 500.
Proof.
  unfold parse_srt_to_text. cbv zeta. fold (segments ud doc).
  now rewrite flat_text_is_joined_segments.
Qed.

(** X4: for every document the output of [parse_srt_to_text] is a sequence
    of paragraphs separated by two newlines, each paragraph a non-empty
    sequence of whitespace-free words separated by single spaces; its words
    are the words of the sanitized segments, in the order of the document.
    So the output never starts or ends with whitespace. *)
Theorem output_is_paragraphs_of_words ud doc :
  exists pss : list (list str),
    Forall is_paragraph pss
    /\ parse_srt_to_text ud doc = join [NL; NL] (map (join [SP]) pss)
    /\ concat pss = flat_map split_ws (segments ud doc)
    /\ strip (parse_srt_to_text ud doc) = parse_srt_to_text ud doc.
Proof.
  rewrite parse_srt_to_text_segments.
  set (flat := join [SP] (segments ud doc)).
  assert (Hflat : flat = join [SP] (split_ws flat)).
  { unfold flat. rewrite <- normalize_words. symmetry. apply flat_text_is_joined_segments. }
  assert (Hwords : split_ws flat = flat_map split_ws (segments ud doc))
    by apply split_ws_join_any.
  assert (Hstrip : forall pss, Forall is_paragraph pss ->
            strip (join [NL; NL] (map (join [SP]) pss)) = join [NL; NL] (map (join [SP]) pss)).
  { intros pss Hp. destruct pss as [|ps pss]; [reflexivity|].
    inversion Hp as [|? ? Hps _]; subst.
    destruct (join_paragraphs_head ps pss Hps) as (c & t & E & Hc).
    destruct (join_paragraphs_last (ps :: pss)) as (r & d & E' & Hd);
      [discriminate|exact Hp|].
    exact (strip_ends _ c t r d E E' Hc Hd). }
  rewrite <- Hwords. clear Hwords.
  destruct (Z.le_gt_cases (Z.of_nat (length flat)) 500) as [Hle|Hgt].
  - rewrite add_paragraph_breaks_short by trivial.
    pose proof (split_ws_words flat) as Hall.
    destruct (split_ws flat) as [|w ws].
    + exists []. rewrite Hflat. split; [constructor|]. now repeat split.
    + exists [w :: ws]. assert (Hp : Forall is_paragraph [w :: ws]).
      { constructor; [|constructor]. split; [discriminate|exact Hall]. }
      split; [exact Hp|]. split; [exact Hflat|].
      split; [cbn [concat]; now rewrite app_nil_r|].
      pose proof (Hstrip [w :: ws] Hp) as Hs.
      change (join [NL; NL] (map (join [SP]) [w :: ws])) with (join [SP] (w :: ws)) in Hs.
      now rewrite <- Hflat in Hs.
  - rewrite add_paragraph_breaks_long by trivial.
    exists (groups 500 (split_ws flat)).
    assert (Hp : Forall is_paragraph (groups 500 (split_ws flat)))
      by apply groups_paragraphs, split_ws_words.
    split; [exact Hp|]. split; [reflexivity|]. split.
    + apply groups_spec.
    + now apply Hstrip.
Qed.

(** X5: the output of [parse_srt_to_text] is empty exactly when no block of
    the document has added a segment. *)
Theorem output_empty_iff_no_segment ud doc :
  parse_srt_to_text ud doc = [] <-> segments ud doc = [].
Proof.
  rewrite parse_srt_to_text_segments. split.
  - intros H. apply (f_equal split_ws) in H.
    rewrite split_ws_add_paragraph_breaks, split_ws_join_any in H.
    pose proof (segments_form ud doc) as Hf.
    destruct (segments ud doc) as [|seg segs]; [reflexivity|].
    inversion Hf as [|? ? [[Hne _] _] _]; subst.
    cbn [flat_map split_ws] in H. apply app_eq_nil in H. destruct H as [H _]. congruence.
  - intros ->. reflexivity.
Qed.

(** X6: [add_paragraph_breaks] is idempotent, for every text and every
    threshold: breaking an already broken text again changes nothing. *)
Theorem add_paragraph_breaks_idempotent text thr :
  add_paragraph_breaks (add_paragraph_breaks text thr) thr = add_paragraph_breaks text thr.
Proof.
  destruct (Z.le_gt_cases (Z.of_nat (length text)) thr) as [Hle|Hgt].
  - now rewrite !(add_paragraph_breaks_short text thr Hle).
  - destruct (Z.le_gt_cases (Z.of_nat (length (add_paragraph_breaks text thr))) thr)
      as [Hle'|Hgt'].
    + now rewrite (add_paragraph_breaks_short (add_paragraph_breaks text thr) thr Hle').
    + rewrite (add_paragraph_breaks_long (add_paragraph_breaks text thr) thr Hgt').
      rewrite split_ws_add_paragraph_breaks.
      now rewrite <- (add_paragraph_breaks_long text thr Hgt).
Qed.



(** X8: [clean_subtitle_text] only removes characters and rewrites
    whitespace: the non-whitespace characters of its result are a
    subsequence of those of the segment, in the same order, and the result
    is never longer than the segment. *)
Theorem sanitizer_only_removes ud text :
  subseq (filter nonspace (clean_subtitle_text ud text)) (filter nonspace text)
  /\ length (clean_subtitle_text ud text) <= length text.
Proof.
  split; [apply clean_subtitle_text_subseq|].
  unfold clean_subtitle_text. cbv zeta.
  eapply Nat.le_trans; [apply subseq_length, strip_subseq|].
  rewrite re_sub_sub_at. eapply Nat.le_trans; [apply collapse_length|].
  apply subseq_length. rewrite !re_sub_sub_at.
  repeat (eapply subseq_trans; [apply erase_subseq|]). apply subseq_refl.
Qed.

(** X9: [parse_srt_to_text] invents nothing and reorders nothing: the
    non-whitespace characters of its output are a subsequence of the
    non-whitespace characters of the document, in the same order. *)
Theorem transformer_only_removes ud doc :
  subseq (filter nonspace (parse_srt_to_text ud doc)) (filter nonspace doc).
Proof.
  rewrite parse_srt_to_text_segments.
  rewrite <- concat_split_ws, split_ws_add_paragraph_breaks, concat_split_ws.
  rewrite filter_nonspace_join. apply segments_subseq.
Qed.

(** X10: a caption block with an index line, a time-range line and text
    that ends with a non-whitespace character adds the sanitized text, its
    lines joined by single spaces, when that is not empty, and nothing
    otherwise: what the index and time-range lines hold never reaches the
    output. *)
Theorem caption_ignores_index_and_time ud acc i t rest r d :
  header_line i -> ~ In NL t -> rest = r ++ [d] -> isspace d = false ->
  parse_block ud acc (caption i t rest)
  = match clean_subtitle_text ud (join [SP] (split_on NL rest)) with
    | [] => acc
    | _ :: _ => acc ++ [clean_subtitle_text ud (join [SP] (split_on NL rest))]
    end.
Proof.
  intros Hi Ht Er Hd.
  destruct (caption_head i t rest Hi) as (c & b & E & Hc).
  assert (Es : strip (caption i t rest) = caption i t rest).
  { apply (strip_ends _ c b (i ++ NL :: t ++ NL :: r) d); trivial.
    unfold caption. rewrite Er, <- !app_assoc. cbn [app]. now rewrite <- !app_assoc. }
  rewrite (parse_block_nonempty ud acc _ c b) by (now rewrite Es).
  rewrite Es. unfold caption.
  rewrite split_on_line by apply Hi. rewrite split_on_line by exact Ht.
  pose proof (split_on_nonempty NL rest) as Hne.
  cbn [skipn length]. destruct (split_on NL rest) as [|l ls]; [congruence|].
  reflexivity.
Qed.

Lemma caption_ignores_index_and_time_witness :
  parse_block ascii_only [] (caption (py "7") (py "00:01 --> 00:02")
                               (py "<i>Two" ++ NL :: py "lines</i>"))
  = [py "Two lines"].
Proof.
  rewrite (caption_ignores_index_and_time ascii_only [] (py "7") (py "00:01 --> 00:02")
             (py "<i>Two" ++ NL :: py "lines</i>")
             (py "<i>Two" ++ NL :: py "lines</i") (ch ">")).
  - vm_compute. reflexivity.
  - split; [vm_compute; intuition discriminate|]. exists (ch "7"), []. now split.
  - vm_compute. intuition discriminate.
  - reflexivity.
  - reflexivity.
Defined.

(** X11: the loop over the blocks only appends: every block adds at most
    one segment after what was there, whatever the other blocks are, so the
    segments stand in the order of their blocks. *)
Theorem blocks_add_in_order ud blocks acc :
  fold_left (parse_block ud) blocks acc = acc ++ flat_map (parse_block ud []) blocks
  /\ Forall (fun b => length (parse_block ud [] b) <= 1) blocks.
Proof.
  split; [apply fold_parse_block|].
  apply Forall_forall. intros b _. unfold parse_block.
  destruct (strip b) as [|c s]; [cbn; lia|]. cbv zeta.
  destruct (3 <=? length (split_on NL (c :: s))); [|cbn; lia].
  destruct (clean_subtitle_text ud (join [SP] (skipn 2 (split_on NL (c :: s)))));
    cbn [app length]; lia.
Qed.

(** X12: whitespace before and after the document does not matter:
    [parse_srt_to_text] gives the same output with it and without it. *)
Theorem surrounding_whitespace_ignored ud pre doc post :
  forallb isspace pre = true -> forallb isspace post = true ->
  parse_srt_to_text ud (pre ++ doc ++ post) = parse_srt_to_text ud doc.
Proof.
  intros Hpre Hpost. unfold parse_srt_to_text. cbv zeta.
  now rewrite strip_surrounded.
Qed.

Lemma surrounding_whitespace_ignored_witness :
  parse_srt_to_text ascii_only ([NL; SP] ++ three_blocks ++ [NL; 9%N; NL])
  = parse_srt_to_text ascii_only three_blocks.
Proof.
  apply (surrounding_whitespace_ignored ascii_only [NL; SP] three_blocks [NL; 9%N; NL]);
    reflexivity.
Defined.

(** ** The handler *)

Lemma outcome_inj (R W L : Type) (r r' : R) (w w' : W) (l l' : L) :
  (r, (w, l)) = (r', (w', l')) -> r = r' /\ w = w' /\ l = l'.
Proof. intros H. injection H as -> -> ->. now repeat split. Qed.

Lemma returned_inj (E A : Type) (a a' : A) : @inr E A a = inr a' -> a = a'.
Proof. intros H. now injection H. Qed.

Section HandlerProperties.

Variables bytes fault world context_t : Type.
Variable s3_client : service bytes fault world.
Variable unicode_decimal : char -> bool.

(** X13: [lambda_handler] reads the keys 'bucket', 'srtKey' and
    'baseFilename' of the event, in that order, before it calls S3: when one
    is missing it raises [KeyError] for the first missing key, S3 is left as
    it was, and the only record logged is the error of the handler. *)
Theorem missing_key_raises_before_any_call event (context : context_t) w log :
  (event (py "bucket") = None ->
   lambda_handler s3_client unicode_decimal event context (w, log)
   = (inl (KeyError (py "bucket")),
      (w, log ++ [error_record s3_client (KeyError (py "bucket"))])))
  /\ (event (py "bucket") <> None -> event (py "srtKey") = None ->
      lambda_handler s3_client unicode_decimal event context (w, log)
      = (inl (KeyError (py "srtKey")),
         (w, log ++ [error_record s3_client (KeyError (py "srtKey"))])))
  /\ (event (py "bucket") <> None -> event (py "srtKey") <> None ->
      event (py "baseFilename") = None ->
      lambda_handler s3_client unicode_decimal event context (w, log)
      = (inl (KeyError (py "baseFilename")),
         (w, log ++ [error_record s3_client (KeyError (py "baseFilename"))]))).
Proof.
  repeat split.
  - intros H. run_handler. now rewrite H.
  - intros H1 H2. run_handler.
    destruct (event (py "bucket")); [|congruence]. now rewrite H2.
  - intros H1 H2 H3. run_handler.
    destruct (event (py "bucket")); [|congruence].
    destruct (event (py "srtKey")); [|congruence]. now rewrite H3.
Qed.

(** X14: [lambda_handler] returns a response exactly when the three keys
    are in the event, the object is read and decoded, its transform is
    encoded and [put_object] succeeds.  The response then has status 200,
    the key 'amazon_transcribe/ine/text/<baseFilename>.txt' and, as
    [textLength], the number of characters of the transformed text; S3 is
    what the one [put_object] made of it, and five records were logged. *)
Theorem handler_succeeds_iff event (context : context_t) w log resp w' log' :
  lambda_handler s3_client unicode_decimal event context (w, log) = (inr resp, (w', log'))
  <->
  exists bucket srt_key base_filename body content out,
    event (py "bucket") = Some bucket
    /\ event (py "srtKey") = Some srt_key
    /\ event (py "baseFilename") = Some base_filename
    /\ get_object s3_client w bucket srt_key = inr body
    /\ decode s3_client body = inr content
    /\ encode s3_client (parse_srt_to_text unicode_decimal content) = inr out
    /\ put_object s3_client w (upload_request bucket base_filename out) = (None, w')
    /\ resp = {| statusCode := 200;
                 txtKey := py "amazon_transcribe/ine/text/" ++ base_filename ++ py ".txt";
                 textLength := length (parse_srt_to_text unicode_decimal content);
                 message := py "Successfully processed SRT to clean text" |}
    /\ log' = log ++ success_log bucket srt_key base_filename content
                       (parse_srt_to_text unicode_decimal content).
Proof.
  split.
  - run_handler. repeat step_handler; intros H; try discriminate.
    apply outcome_inj in H. destruct H as (Hr & <- & <-).
    apply returned_inj in Hr. subst resp.
    match goal with
    | H : put_object _ _ ?r = _ |- _ =>
        change r with (@upload_request bytes s s1 b0) in H
    end.
    exists s, s0, s1, b, s2, b0. repeat split; trivial.
    unfold success_log, info_record. now rewrite <- !app_assoc.
  - intros (bucket & srt_key & base & body & content & out
            & Hb & Hk & Hf & Hget & Hdec & Henc & Hput & -> & ->).
    run_handler. rewrite Hb, Hk, Hf. cbn [fst snd]. rewrite Hget, Hdec. cbn [fst snd].
    rewrite Henc. cbn [fst snd]. unfold upload_request in Hput. rewrite Hput.
    cbn [fst snd]. unfold success_log, info_record. now rewrite <- !app_assoc.
Qed.

(** X15: when the object cannot be read or decoded, [lambda_handler]
    raises the exception of the client unchanged and leaves S3 as it was;
    the failure is logged twice, by [download_srt] without traceback ('SRT
    file not found' for [NoSuchKey], 'Failed to download SRT' for the rest)
    and last by the handler with it. *)
Theorem failed_download_leaves_s3_untouched event (context : context_t) w log
    bucket srt_key base_filename f :
  event (py "bucket") = Some bucket ->
  event (py "srtKey") = Some srt_key ->
  event (py "baseFilename") = Some base_filename ->
  get_object s3_client w bucket srt_key = inl f
  \/ (exists body, get_object s3_client w bucket srt_key = inr body
                   /\ decode s3_client body = inl f) ->
  lambda_handler s3_client unicode_decimal event context (w, log)
  = (inl (Fault f),
     (w, log ++ [info_record (py "Processing SRT file: s3://" ++ bucket ++ py "/" ++ srt_key);
                 {| level := ERROR;
                    text := if is_no_such_key s3_client f
                            then py "SRT file not found: s3://" ++ bucket ++ py "/" ++ srt_key
                            else py "Failed to download SRT: " ++ fault_str s3_client f;
                    exc_info := false |};
                 error_record s3_client (Fault f)])).
Proof.
  intros Hb Hk Hf [Hget|(body & Hget & Hdec)];
    run_handler; rewrite Hb, Hk, Hf; cbn [fst snd]; rewrite Hget; cbn [fst snd];
    try rewrite Hdec; cbn [fst snd];
    destruct (is_no_such_key s3_client f); cbn [fst snd];
    now rewrite <- !app_assoc.
Qed.

(** X16: when the text cannot be encoded or [put_object] fails,
    [lambda_handler] raises that exception unchanged after the download was
    logged; S3 is as it was when the encoding failed and as the failed
    [put_object] left it otherwise; the failure is logged by [upload_text]
    and last by the handler. *)
Theorem failed_upload_is_reraised event (context : context_t) w log
    bucket srt_key base_filename body content f w' :
  event (py "bucket") = Some bucket ->
  event (py "srtKey") = Some srt_key ->
  event (py "baseFilename") = Some base_filename ->
  get_object s3_client w bucket srt_key = inr body ->
  decode s3_client body = inr content ->
  (encode s3_client (parse_srt_to_text unicode_decimal content) = inl f /\ w' = w)
  \/ (exists out, encode s3_client (parse_srt_to_text unicode_decimal content) = inr out
                  /\ put_object s3_client w (upload_request bucket base_filename out)
                     = (Some f, w')) ->
  lambda_handler s3_client unicode_decimal event context (w, log)
  = (inl (Fault f),
     (w', log ++ [info_record (py "Processing SRT file: s3://" ++ bucket ++ py "/" ++ srt_key);
                  info_record (py "Downloaded " ++ str_of_nat (length content)
                               ++ py " bytes from s3://" ++ bucket ++ py "/" ++ srt_key);
                  {| level := ERROR;
                     text := py "Failed to upload text: " ++ fault_str s3_client f;
                     exc_info := false |};
                  error_record s3_client (Fault f)])).
Proof.
  intros Hb Hk Hf Hget Hdec [[Henc ->]|(out & Henc & Hput)];
    run_handler; rewrite Hb, Hk, Hf; cbn [fst snd]; rewrite Hget, Hdec; cbn [fst snd];
    rewrite Henc; cbn [fst snd].
  - unfold info_record. now rewrite <- !app_assoc.
  - unfold upload_request in Hput. rewrite Hput. cbn [fst snd].
    unfold info_record. now rewrite <- !app_assoc.
Qed.

(** X17: whatever the outcome, [lambda_handler] changes S3 by nothing but
    the one [put_object] of [upload_text]: S3 is after the call as it was
    before, or as that call left it, and the call was for the bucket of the
    event, the key 'amazon_transcribe/ine/text/<baseFilename>.txt' and the
    encoded transform of the object read. *)
Theorem s3_changes_only_by_the_upload event (context : context_t) w log r w' log' :
  lambda_handler s3_client unicode_decimal event context (w, log) = (r, (w', log')) ->
  w' = w
  \/ exists bucket srt_key base_filename body content out,
       event (py "bucket") = Some bucket
       /\ event (py "srtKey") = Some srt_key
       /\ event (py "baseFilename") = Some base_filename
       /\ get_object s3_client w bucket srt_key = inr body
       /\ decode s3_client body = inr content
       /\ encode s3_client (parse_srt_to_text unicode_decimal content) = inr out
       /\ w' = snd (put_object s3_client w (upload_request bucket base_filename out)).
Proof.
  run_handler. repeat step_handler; intros H; apply outcome_inj in H; destruct H as (<- & <- & <-);
    try (left; reflexivity).
  all: right;
    match goal with
    | H : put_object _ _ ?r = _ |- _ =>
        change r with (@upload_request bytes s s1 b0) in H
    end;
    exists s, s0, s1, b, s2, b0; repeat split; trivial;
    match goal with H : put_object _ _ _ = _ |- _ => now rewrite H end.
Qed.

(** X18: [lambda_handler] only appends to the log, and it logs an error
    exactly when it raises: a run that returns a response logged INFO
    records only, and a run that raises [e] logged, as its last record, the
    error of [e] with traceback, after records without traceback. *)
Theorem errors_logged_iff_raised event (context : context_t) w log r w' log' :
  lambda_handler s3_client unicode_decimal event context (w, log) = (r, (w', log')) ->
  match r with
  | inr _ => exists new, log' = log ++ new /\ Forall (fun x => level x = INFO) new
  | inl e => exists older,
      log' = log ++ older ++ [error_record s3_client e]
      /\ Forall (fun x => exc_info x = false) older
  end.
Proof.
  run_handler. repeat step_handler; intros H; apply outcome_inj in H; destruct H as (<- & <- & <-);
    rewrite <- ?app_assoc; cbn [app];
    first [ exists []; split; [reflexivity|]
          | eexists [_]; split; [reflexivity|]
          | eexists [_; _]; split; [reflexivity|]
          | eexists [_; _; _]; split; [reflexivity|]
          | eexists; split; [reflexivity|] ];
    repeat constructor.
Qed.

End HandlerProperties.

Lemma missing_key_raises_before_any_call_witness :
  lambda_handler (memory_s3 false) ascii_only (fun _ => None) tt (docstring_store, [])
  = (inl (KeyError (py "bucket")),
     (docstring_store, [error_record (memory_s3 false) (KeyError (py "bucket"))])).
Proof.
  apply (proj1 (missing_key_raises_before_any_call _ _ _ unit (memory_s3 false) ascii_only
                  (fun _ => None) tt docstring_store [])).
  reflexivity.
Defined.

Lemma handler_succeeds_iff_witness :
  exists resp w' log',
    docstring_run = (inr resp, (w', log'))
    /\ txtKey resp = py "amazon_transcribe/ine/text/video01.txt"
    /\ textLength resp = 99
    /\ w' = (py "04-california", py "amazon_transcribe/ine/text/video01.txt",
             parse_srt_to_text ascii_only three_blocks) :: docstring_store.
Proof.
  eexists _, _, _. split.
  - apply (proj2 (handler_succeeds_iff _ _ _ unit (memory_s3 false) ascii_only
                    docstring_event tt docstring_store [] _ _ _)).
    exists (py "04-california"), (py "amazon_transcribe/ine/transcripts/video01.srt"),
      (py "video01"), three_blocks, three_blocks, (parse_srt_to_text ascii_only three_blocks).
    repeat split; reflexivity.
  - repeat split; vm_compute; reflexivity.
Defined.

Lemma failed_download_leaves_s3_untouched_witness :
  fst (lambda_handler (memory_s3 false) ascii_only docstring_event tt ([], []))
  = inl (Fault (py "NoSuchKey")).
Proof.
  rewrite (failed_download_leaves_s3_untouched _ _ _ unit (memory_s3 false) ascii_only
             docstring_event tt [] [] (py "04-california")
             (py "amazon_transcribe/ine/transcripts/video01.srt") (py "video01")
             (py "NoSuchKey")).
  - reflexivity.
  - reflexivity.
  - reflexivity.
  - reflexivity.
  - left. reflexivity.
Defined.

Lemma failed_upload_is_reraised_witness :
  fst (lambda_handler (memory_s3 true) ascii_only docstring_event tt (docstring_store, []))
  = inl (Fault (py "AccessDenied")).
Proof.
  rewrite (failed_upload_is_reraised _ _ _ unit (memory_s3 true) ascii_only
             docstring_event tt docstring_store [] (py "04-california")
             (py "amazon_transcribe/ine/transcripts/video01.srt") (py "video01")
             three_blocks three_blocks (py "AccessDenied") docstring_store).
  - reflexivity.
  - reflexivity.
  - reflexivity.
  - reflexivity.
  - reflexivity.
  - reflexivity.
  - right. exists (parse_srt_to_text ascii_only three_blocks). split; reflexivity.
Defined.

Lemma s3_changes_only_by_the_upload_witness :
  fst (snd docstring_run) = docstring_store
  \/ exists bucket srt_key base_filename body content out,
       docstring_event (py "bucket") = Some bucket
       /\ docstring_event (py "srtKey") = Some srt_key
       /\ docstring_event (py "baseFilename") = Some base_filename
       /\ get_object (memory_s3 false) docstring_store bucket srt_key = inr body
       /\ decode (memory_s3 false) body = inr content
       /\ encode (memory_s3 false) (parse_srt_to_text ascii_only content) = inr out
       /\ fst (snd docstring_run)
          = snd (put_object (memory_s3 false) docstring_store
                   (upload_request bucket base_filename out)).
Proof.
  apply (s3_changes_only_by_the_upload _ _ _ unit (memory_s3 false) ascii_only
           docstring_event tt docstring_store []
           (fst docstring_run) (fst (snd docstring_run)) (snd (snd docstring_run))).
  vm_compute. reflexivity.
Defined.

Lemma errors_logged_iff_raised_witness :
  match fst docstring_run with
  | inr _ => exists new, snd (snd docstring_run) = [] ++ new
                         /\ Forall (fun x => level x = INFO) new
  | inl e => exists older,
      snd (snd docstring_run) = [] ++ older ++ [error_record (memory_s3 false) e]
      /\ Forall (fun x => exc_info x = false) older
  end.
Proof.
  apply (errors_logged_iff_raised _ _ _ unit (memory_s3 false) ascii_only
           docstring_event tt docstring_store []
           (fst docstring_run) (fst (snd docstring_run)) (snd (snd docstring_run))).
  vm_compute. reflexivity.
Defined.

(** * The paragraph loop and the sanitizer against their descriptions *)

(** ** The words of a text *)

Lemma words_of_space c s ws : isspace c = true -> words_of s ws -> words_of (c :: s) ws.
Proof.
  intros Hc H. destruct H as [sp Hsp|sp w rest ws Hsp Hw Hrest H].
  - apply (words_none (c :: sp)). cbn [forallb]. now rewrite Hc.
  - apply (words_cons (c :: sp) w rest ws); trivial. cbn [forallb]. now rewrite Hc.
Qed.

Lemma spaces_head (sp : str) c r : forallb isspace sp = true -> sp = c :: r -> isspace c = true.
Proof. intros H ->. cbn [forallb] in H. now apply andb_prop in H. Qed.

(** [str.split()] gives the whitespace-delimited words. *)
Lemma split_ws_words_of : forall s, words_of s (split_ws s).
Proof.
  induction s as [|c s IH]; [now apply (words_none [])|].
  destruct (isspace c) eqn:Hc.
  - rewrite split_ws_space by exact Hc. now apply words_of_space.
  - destruct s as [|d s'].
    + cbn [split_ws]. rewrite Hc.
      apply (words_cons [] [c] [] []);
        [reflexivity | cbn; unfold nonspace; now rewrite Hc | discriminate
        | now apply (words_none [])].
    + destruct (isspace d) eqn:Hd.
      * rewrite split_ws_then_space by trivial.
        apply (words_cons [] [c] (d :: s') (split_ws (d :: s')));
          [reflexivity | cbn; unfold nonspace; now rewrite Hc
          | intros c' r E; injection E as <- <-; exact Hd | exact IH].
      * rewrite split_ws_then_word by trivial.
        inversion IH as [sp Hsp E1 E2|sp w rest ws Hsp Hw Hrest H E1 E2].
        -- subst sp. cbn [forallb] in Hsp. rewrite Hd in Hsp. discriminate.
        -- destruct sp as [|x sp].
           ++ cbn [app] in E1.
              apply (words_cons [] (c :: w) rest ws); trivial.
              rewrite is_word_cons. unfold nonspace at 1. rewrite Hc. cbn [negb andb].
              now apply is_word_nonspace.
           ++ cbn [app] in E1. injection E1 as -> _.
              cbn [forallb] in Hsp. rewrite Hd in Hsp. discriminate.
Qed.

(** A text has no other words. *)
Lemma words_of_split_ws s ws : words_of s ws -> split_ws s = ws.
Proof.
  induction 1 as [sp Hsp|sp w rest ws Hsp Hw Hrest _ IH].
  - rewrite <- split_ws_lstrip. now rewrite lstrip_spaces.
  - rewrite <- split_ws_lstrip, lstrip_app_spaces, split_ws_lstrip by exact Hsp.
    destruct rest as [|c r].
    + rewrite app_nil_r. cbn in IH. subst ws. now apply split_ws_word.
    + rewrite split_ws_run by (trivial; now apply (Hrest c r)).
      f_equal. rewrite <- IH. symmetry. apply split_ws_space. now apply (Hrest c r).
Qed.

Lemma words_of_unique s ws ws' : words_of s ws -> words_of s ws' -> ws = ws'.
Proof. intros H H'. apply words_of_split_ws in H, H'. congruence. Qed.

(** ** The end of a sentence *)

Lemma endswith_terminal w : endswith_any w terminals = true <-> ends_sentence w.
Proof.
  unfold endswith_any, terminals, endswith, ends_sentence.
  induction w as [|c w' IHw'] using rev_ind.
  - split; [discriminate|]. intros (w' & c & E & _). now destruct w'.
  - clear IHw'. rewrite rev_app_distr. cbn [rev app existsb startswith py list_ascii_of_string map].
    rewrite !andb_true_r, orb_false_r. split.
    + intros H. exists w', c. split; trivial.
      apply orb_prop in H. destruct H as [H|H]; [left; now apply N.eqb_eq in H|].
      apply orb_prop in H. destruct H as [H|H]; apply N.eqb_eq in H; auto.
    + intros (w2 & c2 & E & H). apply app_inj_tail in E. destruct E as [_ <-].
      destruct H as [-> | [-> | ->]]; reflexivity.
Qed.

Lemma closes_sentence thr ws : closes thr ws = true <-> sentence_closed thr ws.
Proof.
  unfold closes, sentence_closed. rewrite andb_true_iff, Z.leb_le, endswith_terminal.
  split.
  - intros [Hw He]. split; trivial.
    induction ws as [|x ws' _] using rev_ind.
    + cbn [last] in He. destruct He as (w' & c & E & _). now destruct w'.
    + rewrite last_last in He. now exists ws', x.
  - intros [Hw (ws' & w & -> & He)]. split; trivial. now rewrite last_last.
Qed.

(** ** The claims on the loop and on the sanitizer *)

(** C2: for a flat text strictly longer than the threshold,
    [add_paragraph_breaks] cuts the whitespace-delimited words of the text,
    in order, into paragraphs and joins the words of a paragraph by one
    space and the paragraphs by two newlines.  The counter of a paragraph
    is the length of each of its words plus one ([weight]).  A paragraph is
    closed exactly when the counter has reached the threshold and the
    current word ends with '.', '!' or '?': every paragraph but the last
    meets that condition at its last word, and no paragraph, the last
    included, meets it at an earlier word.  The words after the last closing
    are the final paragraph whatever its length.  The words of the output
    are the words of the input: none is dropped, added or moved. *)
Theorem reflow_keeps_every_word text thr :
  (thr < Z.of_nat (length text))%Z ->
  exists pss : list (list str),
    add_paragraph_breaks text thr = join [NL; NL] (map (join [SP]) pss)
    /\ words_of text (concat pss)
    /\ Forall (fun p => p <> []) pss
    /\ (forall a p b, pss = a ++ p :: b -> b <> [] -> sentence_closed thr p)
    /\ (forall a p b pre suf, pss = a ++ p :: b ->
          p = pre ++ suf -> pre <> [] -> suf <> [] -> ~ sentence_closed thr pre)
    /\ words_of (add_paragraph_breaks text thr) (concat pss)
    /\ concat pss = split_ws text.
Proof.
  intros Hlong. exists (groups thr (split_ws text)).
  destruct (groups_spec thr (split_ws text)) as (Hcat & Hall & Hclose).
  rewrite add_paragraph_breaks_long by exact Hlong.
  split; [reflexivity|]. split; [rewrite Hcat; apply split_ws_words_of|].
  split; [eapply Forall_impl; [|exact Hall]; cbv beta; tauto|].
  split; [intros a p b E Hb; apply closes_sentence; exact (Hclose a p b E Hb)|].
  split.
  - intros a p b pre suf E Ep Hpre Hsuf Hc. apply closes_sentence in Hc.
    rewrite E in Hall. apply Forall_app in Hall. destruct Hall as [_ Hall].
    inversion Hall as [|? ? [_ Hfirst] _]; subst.
    rewrite (Hfirst pre suf eq_refl Hpre Hsuf) in Hc. discriminate.
  - split; [|exact Hcat].
    rewrite <- (split_ws_paragraphs (groups thr (split_ws text)))
      by apply groups_paragraphs, split_ws_words.
    apply split_ws_words_of.
Qed.

Lemma reflow_keeps_every_word_witness :
  add_paragraph_breaks (py "aa. bb. cc") 4
  = py "aa." ++ [NL; NL] ++ py "bb." ++ [NL; NL] ++ py "cc"
  /\ exists pss : list (list str),
       add_paragraph_breaks (py "aa. bb. cc") 4 = join [NL; NL] (map (join [SP]) pss)
       /\ words_of (py "aa. bb. cc") (concat pss)
       /\ Forall (fun p => p <> []) pss
       /\ (forall a p b, pss = a ++ p :: b -> b <> [] -> sentence_closed 4 p)
       /\ (forall a p b pre suf, pss = a ++ p :: b ->
             p = pre ++ suf -> pre <> [] -> suf <> [] -> ~ sentence_closed 4 pre)
       /\ words_of (add_paragraph_breaks (py "aa. bb. cc") 4) (concat pss)
       /\ concat pss = split_ws (py "aa. bb. cc").
Proof.
  split; [vm_compute; reflexivity|].
  apply (reflow_keeps_every_word (py "aa. bb. cc") 4). vm_compute. reflexivity.
Defined.

(** ** Runs of characters of one class *)

Lemma span_run (f : char -> bool) (s : str) :
  exists run rest, s = run ++ rest /\ forallb f run = true
                   /\ (forall c r, rest = c :: r -> f c = false).
Proof.
  induction s as [|x s (run & rest & -> & Hrun & Hrest)].
  - exists [], []. repeat split; trivial. discriminate.
  - destruct (f x) eqn:Hx.
    + exists (x :: run), rest. repeat split; trivial. cbn [forallb]. now rewrite Hx.
    + exists [], (x :: run ++ rest). repeat split; trivial.
      intros c r E. injection E as <- _. exact Hx.
Qed.

(** A greedy repetition before a continuation that refuses the characters
    of the class takes the whole run and gives nothing back. *)
Lemma greedy_run (f : char -> bool) (k : cont) :
  (forall b c s, f c = true -> k b (c :: s) = None) ->
  (forall b s, k b s = k false s) ->
  forall run rest bos,
    forallb f run = true -> (forall c r, rest = c :: r -> f c = false) ->
    greedy f k bos (run ++ rest) = option_map (Nat.add (length run)) (k false rest).
Proof.
  intros Hrefuse Hbos run rest. induction run as [|x run IH]; intros bos Hrun Hrest.
  - cbn [app length]. destruct rest as [|c r].
    + cbn [greedy]. rewrite Hbos. now destruct (k false []).
    + cbn [greedy]. rewrite (Hrest c r eq_refl), Hbos. now destruct (k false (c :: r)).
  - cbn [forallb] in Hrun. apply andb_prop in Hrun. destruct Hrun as [Hx Hrun].
    cbn [app greedy length]. rewrite Hx, (IH false Hrun Hrest).
    destruct (k false rest) as [n|]; cbn [option_map]; [reflexivity|].
    now apply Hrefuse.
Qed.

(** A greedy repetition at the end of a pattern takes the whole run. *)
Lemma greedy_last (f : char -> bool) :
  forall run rest bos,
    forallb f run = true -> (forall c r, rest = c :: r -> f c = false) ->
    greedy f (fun _ _ => Some 0) bos (run ++ rest) = Some (length run).
Proof.
  induction run as [|x run IH]; intros rest bos Hrun Hrest.
  - cbn [app length]. destruct rest as [|c r]; [reflexivity|].
    cbn [greedy]. now rewrite (Hrest c r eq_refl).
  - cbn [forallb] in Hrun. apply andb_prop in Hrun. destruct Hrun as [Hx Hrun].
    cbn [app greedy length]. now rewrite Hx, (IH rest false Hrun Hrest).
Qed.

Lemma not_char_self c : not_char c c = false.
Proof. unfold not_char. now rewrite N.eqb_refl. Qed.

Lemma not_char_false c z : not_char c z = false -> z = c.
Proof. unfold not_char. destruct (N.eqb_spec z c); [trivial|discriminate]. Qed.

Lemma closer_refuses c b z s : not_char c z = true -> closer c b (z :: s) = None.
Proof.
  intros H. rewrite closer_cons. unfold not_char in H. now destruct (z =? c)%N.
Qed.

Lemma closer_bos c b s : closer c b s = closer c false s.
Proof. reflexivity. Qed.

(** The first closer of a text: what stands before it holds none. *)
Lemma first_closer (inside : char -> bool) c (body body' rest rest' : str) :
  inside c = false ->
  forallb inside body = true -> forallb inside body' = true ->
  body ++ c :: rest = body' ++ c :: rest' -> body = body' /\ rest = rest'.
Proof.
  intros Hc. revert body'. induction body as [|y body IH]; intros body' Hb Hb' E.
  - destruct body' as [|y' body']; cbn [app] in E.
    + injection E as <-. now split.
    + injection E as <- _. cbn [forallb] in Hb'. rewrite Hc in Hb'. discriminate.
  - destruct body' as [|y' body']; cbn [app] in E.
    + injection E as -> _. cbn [forallb] in Hb. rewrite Hc in Hb. discriminate.
    + injection E as <- E. cbn [forallb] in Hb, Hb'.
      apply andb_prop in Hb, Hb'. destruct (IH body' (proj2 Hb) (proj2 Hb') E) as [-> ->].
      now split.
Qed.

(** ** Tags and curly-brace groups, cut *)

Lemma re_match_group_plus o c bos x t :
  re_match (group_plus o c) bos (x :: t) =
  if (x =? o)%N
  then option_map S (one (not_char c) (greedy (not_char c) (closer c)) false t)
  else None.
Proof. reflexivity. Qed.

(** After the opener: a match takes the run of characters up to the first
    closer, when that run is not empty. *)
Lemma plus_body c t :
  match one (not_char c) (greedy (not_char c) (closer c)) false t with
  | Some n => exists body rest,
      t = body ++ c :: rest /\ forallb (not_char c) body = true
      /\ 1 <= length body /\ n = S (length body)
  | None => forall body rest,
      t = body ++ c :: rest -> forallb (not_char c) body = true -> length body < 1
  end.
Proof.
  destruct (span_run (not_char c) t) as (run & rest & -> & Hrun & Hrest).
  destruct run as [|y run].
  - cbn [app]. assert (E : one (not_char c) (greedy (not_char c) (closer c)) false rest = None).
    { destruct rest as [|z r]; [reflexivity|]. cbn [one]. now rewrite (Hrest z r eq_refl). }
    rewrite E. intros body rest' Et Hb.
    destruct body as [|z body]; [cbn; lia|].
    cbn [app] in Et. subst rest. cbn [forallb] in Hb. apply andb_prop in Hb.
    rewrite (Hrest z _ eq_refl) in Hb. now destruct Hb.
  - cbn [forallb] in Hrun. apply andb_prop in Hrun. destruct Hrun as [Hy Hrun].
    cbn [app one]. rewrite Hy.
    rewrite (greedy_run (not_char c) (closer c) (closer_refuses c) (closer_bos c)
               run rest false Hrun Hrest).
    destruct rest as [|z r].
    + cbn [closer one option_map]. intros body rest' Et Hb.
      apply not_char_all in Hb. exfalso.
      assert (Hin : In c (y :: run ++ [])) by (rewrite Et; apply in_elt).
      rewrite app_nil_r in Hin.
      apply (not_char_all c (y :: run)); [|exact Hin].
      cbn [forallb]. now rewrite Hy, Hrun.
    + pose proof (not_char_false _ _ (Hrest z r eq_refl)) as ->.
      rewrite closer_cons, N.eqb_refl. cbn [option_map].
      exists (y :: run), r. repeat split.
      * cbn [forallb]. now rewrite Hy, Hrun.
      * cbn [length]. lia.
      * cbn [length]. f_equal. lia.
Qed.

Lemma sub_group_plus o c : forall s bos,
  group_cut o c (not_char c) 1 s (sub_at (group_plus o c) [] bos s).
Proof.
  induction s as [s IH] using str_length_ind. intros bos.
  destruct s as [|x t]; [constructor|].
  unfold sub_at. rewrite scan_at_cons, re_match_group_plus.
  pose proof (plus_body c t) as Hbody.
  destruct (N.eqb_spec x o) as [->|Hx].
  - destruct (one (not_char c) (greedy (not_char c) (closer c)) false t) as [n|];
      cbn [option_map].
    + destruct Hbody as (body & rest & -> & Hb & Hlen & ->).
      rewrite skipn_past. cbn [flat_map put app].
      apply group_cut_drop; trivial.
      apply (IH rest). cbn [length]. rewrite length_app. cbn [length]. lia.
    + cbn [flat_map put app]. apply group_cut_keep; [now right|].
      apply (IH t). cbn [length]. lia.
  - cbn [flat_map put app]. apply group_cut_keep; [now left|].
    apply (IH t). cbn [length]. lia.
Qed.

(** ** Square-bracket and parenthesis groups, cut *)

Lemma in_line_but_all c body :
  forallb (in_line_but c) body = true <-> ~ In c body /\ ~ In NL body.
Proof.
  induction body as [|y body IH]; [cbn; tauto|].
  cbn [forallb In]. rewrite andb_true_iff, IH. unfold in_line_but, not_char.
  rewrite andb_true_iff, !negb_true_iff, !N.eqb_neq. intuition congruence.
Qed.

Lemma lazy_cut_group_cut o c s ps :
  lazy_cut o c s ps -> group_cut o c (in_line_but c) 0 s (flat_map (put []) ps).
Proof.
  induction 1 as [|x t ps Hkeep _ IH|body rest ps Hc Hn _ IH]; cbn [flat_map put app].
  - constructor.
  - apply group_cut_keep; [|exact IH].
    destruct Hkeep as [Hx|Hline]; [now left|right].
    intros body rest E Hb. apply in_line_but_all in Hb. destruct Hb as [_ Hb].
    destruct (Hb (Hline body rest E)).
  - apply group_cut_drop; [|lia|exact IH]. now apply in_line_but_all.
Qed.

Lemma sub_group_lazy o c s :
  group_cut o c (in_line_but c) 0 s (re_sub (group_lazy o c) [] s).
Proof. apply lazy_cut_group_cut, scan_lazy_cut. Qed.



(** A cut has one result. *)
Lemma group_cut_unique o c inside least t a :
  inside c = false ->
  group_cut o c inside least t a -> forall b, group_cut o c inside least t b -> a = b.
Proof.
  intros Hc H. induction H as [|x t out Hkeep _ IH|body rest out Hb Hlen _ IH]; intros b H'.
  - now inversion H'.
  - inversion H' as [|x' t' out' _ Hcut E1 E2|body' rest' out' Hb' Hlen' Hcut E1 E2]; subst.
    + f_equal. now apply IH.
    + destruct Hkeep as [Hx|Hnone]; [congruence|].
      specialize (Hnone body' rest' eq_refl Hb'). lia.
  - inversion H' as [|x' t' out' Hkeep' Hcut E1 E2|body' rest' out' Hb' Hlen' Hcut E1 E2]; subst.
    + destruct Hkeep' as [Hx|Hnone]; [congruence|].
      specialize (Hnone body rest eq_refl Hb). lia.
    + destruct (first_closer inside c body body' rest rest' Hc Hb Hb' (eq_sym E1)) as [-> ->].
      now apply IH.
Qed.

Lemma shortest_cut_unique o c t a :
  shortest_cut o c t a -> forall b, shortest_cut o c t b -> a = b.
Proof.
  assert (Hall : forall body, ~ In c body -> forallb (not_char c) body = true).
  { intros body H. apply forallb_forall. intros y Hy. unfold not_char.
    destruct (N.eqb_spec y c); [subst; contradiction|reflexivity]. }
  intros H. induction H as [|x t out Hkeep _ IH|body rest out Hb _ IH]; intros b H'.
  - now inversion H'.
  - inversion H' as [|x' t' out' _ Hcut E1 E2|body' rest' out' Hb' Hcut E1 E2]; subst.
    + f_equal. now apply IH.
    + destruct Hkeep as [Hx|Hnone]; [congruence|]. destruct Hnone. apply in_elt.
  - inversion H' as [|x' t' out' Hkeep' Hcut E1 E2|body' rest' out' Hb' Hcut E1 E2]; subst.
    + destruct Hkeep' as [Hx|Hnone]; [congruence|]. destruct Hnone. apply in_elt.
    + destruct (first_closer (not_char c) c body body' rest rest' (not_char_self c)
                  (Hall _ Hb) (Hall _ Hb') (eq_sym E1)) as [-> ->].
      now apply IH.
Qed.

(** ** The speaker label, cut *)

Lemma speaker_label_at ud u :
  re_match (speaker_label ud) true (py "Speaker " ++ u)
  = option_map (Nat.add 8) (label_tail ud false u).
Proof.
  change (re_match (speaker_label ud) true (py "Speaker " ++ u))
    with (option_map S (option_map S (option_map S (option_map S
           (option_map S (option_map S (option_map S (option_map S
              (label_tail ud false u))))))))).
  now destruct (label_tail ud false u).
Qed.

Lemma speaker_label_only ud t n :
  re_match (speaker_label ud) true t = Some n -> exists u, t = py "Speaker " ++ u.
Proof.
  intros E. unfold speaker_label, lit in E.
  cbn [py list_ascii_of_string map app re_match] in E.
  repeat (apply one_is_char in E; destruct E as (? & ? & -> & E & ->)).
  eexists. reflexivity.
Qed.

Lemma run_unique (f : char -> bool) (run run' rest rest' : str) :
  forallb f run = true -> forallb f run' = true ->
  (forall c r, rest = c :: r -> f c = false) ->
  (forall c r, rest' = c :: r -> f c = false) ->
  run ++ rest = run' ++ rest' -> run = run' /\ rest = rest'.
Proof.
  revert run'. induction run as [|y run IH]; intros run' Hr Hr' Hrest Hrest' E.
  - destruct run' as [|y' run']; [now split|].
    cbn [app] in E. cbn [forallb] in Hr'. apply andb_prop in Hr'.
    rewrite (Hrest y' _ E) in Hr'. now destruct Hr'.
  - destruct run' as [|y' run']; cbn [app] in E.
    + cbn [forallb] in Hr. apply andb_prop in Hr.
      rewrite (Hrest' y _ (eq_sym E)) in Hr. now destruct Hr.
    + injection E as <- E. cbn [forallb] in Hr, Hr'. apply andb_prop in Hr, Hr'.
      destruct (IH run' (proj2 Hr) (proj2 Hr') Hrest Hrest' E) as [-> ->]. now split.
Qed.

Lemma colon_not_decimal ud : isdecimal ud (ch ":") = false.
Proof. reflexivity. Qed.

Lemma after_digits_refuses ud b c s :
  isdecimal ud c = true ->
  one (is_char (ch ":")) (greedy isspace (fun _ _ => Some 0)) b (c :: s) = None.
Proof.
  intros H. cbn [one]. unfold is_char. destruct (N.eqb_spec c (ch ":")) as [->|_]; [|reflexivity].
  rewrite colon_not_decimal in H. discriminate.
Qed.

Lemma label_tail_spec ud u :
  match label_tail ud false u with
  | Some n => exists ds sp rest,
      u = ds ++ ch ":" :: sp ++ rest
      /\ ds <> [] /\ forallb (isdecimal ud) ds = true /\ forallb isspace sp = true
      /\ (forall c r, rest = c :: r -> isspace c = false)
      /\ n = length ds + S (length sp)
  | None => forall ds r,
      ds <> [] -> forallb (isdecimal ud) ds = true -> u <> ds ++ ch ":" :: r
  end.
Proof.
  destruct (span_run (isdecimal ud) u) as (run & rest & -> & Hrun & Hrest).
  assert (Hcolon : forall c r, ch ":" :: r = c :: r -> isdecimal ud c = false).
  { intros c r E. injection E as <-. apply colon_not_decimal. }
  assert (Hother : forall ds r, forallb (isdecimal ud) ds = true ->
            run ++ rest = ds ++ ch ":" :: r -> run = ds /\ rest = ch ":" :: r).
  { intros ds r Hds E. apply (run_unique (isdecimal ud)); trivial.
    intros c r' Ec. injection Ec as <- _. apply colon_not_decimal. }
  unfold label_tail. destruct run as [|y run].
  - assert (E : one (isdecimal ud)
                  (greedy (isdecimal ud)
                     (one (is_char (ch ":")) (greedy isspace (fun _ _ => Some 0))))
                  false ([] ++ rest) = None).
    { cbn [app]. destruct rest as [|z r]; [reflexivity|]. cbn [one].
      now rewrite (Hrest z r eq_refl). }
    rewrite E. intros ds r Hne Hds Eu.
    destruct (Hother ds r Hds Eu) as [<- _]. now destruct Hne.
  - pose proof Hrun as Hrun'. cbn [forallb] in Hrun. apply andb_prop in Hrun.
    destruct Hrun as [Hy Hrun].
    cbn [app one]. rewrite Hy.
    rewrite (greedy_run (isdecimal ud) _ (after_digits_refuses ud) (fun _ _ => eq_refl)
               run rest false Hrun Hrest).
    destruct rest as [|z r].
    + cbn [one option_map]. intros ds r' _ Hds Eu.
      destruct (Hother ds r' Hds Eu) as [_ Er]. discriminate.
    + cbn [one]. unfold is_char at 1. destruct (N.eqb_spec z (ch ":")) as [->|Hz].
      * destruct (span_run isspace r) as (sp & rest' & -> & Hsp & Hrest').
        rewrite (greedy_last isspace sp rest' false Hsp).
        -- cbn [option_map]. exists (y :: run), sp, rest'.
           split; [reflexivity|]. split; [discriminate|]. split; [exact Hrun'|].
           split; [exact Hsp|]. split; [exact Hrest'|]. cbn [length]. lia.
        -- exact Hrest'.
      * cbn [option_map]. intros ds r' _ Hds Eu.
        destruct (Hother ds r' Hds Eu) as [_ Er]. congruence.
Qed.

Lemma skipn_exact (l r : str) : skipn (length l) (l ++ r) = r.
Proof. induction l as [|x l IH]; [reflexivity|exact IH]. Qed.

Lemma sub_speaker_label ud t : label_cut ud t (re_sub (speaker_label ud) [] t).
Proof.
  unfold speaker_label at 1. rewrite re_sub_anchored. fold (speaker_label ud).
  destruct (re_match (speaker_label ud) true t) as [n|] eqn:E.
  - left. destruct (speaker_label_only _ _ _ E) as (u & ->).
    rewrite speaker_label_at in E. pose proof (label_tail_spec ud u) as H.
    destruct (label_tail ud false u) as [m|]; [|discriminate].
    injection E as <-.
    destruct H as (ds & sp & rest & -> & Hne & Hds & Hsp & Hrest & ->).
    exists (py "Speaker " ++ ds ++ ch ":" :: sp).
    assert (Et : py "Speaker " ++ ds ++ ch ":" :: sp ++ rest
                 = (py "Speaker " ++ ds ++ ch ":" :: sp) ++ rest).
    { now rewrite <- !app_assoc. }
    rewrite Et.
    match goal with
    | |- context [skipn ?k _] =>
        replace k with (length (py "Speaker " ++ ds ++ ch ":" :: sp))
          by (rewrite !length_app; cbn [length py list_ascii_of_string map]; lia)
    end.
    rewrite skipn_exact. split; [now exists ds, sp|]. split; trivial.
  - right. split; [reflexivity|].
    intros l r (ds & sp & Hne & Hds & Hsp & ->) Et. subst t.
    assert (E' : (py "Speaker " ++ ds ++ ch ":" :: sp) ++ r
                 = py "Speaker " ++ (ds ++ ch ":" :: sp ++ r)).
    { now rewrite <- !app_assoc. }
    rewrite E', speaker_label_at in E. pose proof (label_tail_spec ud (ds ++ ch ":" :: sp ++ r)) as H.
    destruct (label_tail ud false (ds ++ ch ":" :: sp ++ r)); [discriminate|].
    exact (H ds (sp ++ r) Hne Hds eq_refl).
Qed.

Lemma label_cut_unique ud t a b : label_cut ud t a -> label_cut ud t b -> a = b.
Proof.
  assert (Hns : forall out : str, (forall c r, out = c :: r -> isspace c = false) ->
                  forall c r, out = c :: r -> isspace c = false) by trivial.
  intros [(l & Hl & Et & Ha)|[-> Hno]] [(l' & Hl' & Et' & Hb)|[-> Hno']].
  - destruct Hl as (ds & sp & Hne & Hds & Hsp & ->).
    destruct Hl' as (ds' & sp' & Hne' & Hds' & Hsp' & ->).
    rewrite Et in Et'. rewrite <- !app_assoc in Et'. apply app_inv_head in Et'.
    cbn [app] in Et'.
    destruct (first_closer (isdecimal ud) (ch ":") ds ds' (sp ++ a) (sp' ++ b)
                (colon_not_decimal ud) Hds Hds' Et') as [_ E].
    now destruct (run_unique isspace sp sp' a b Hsp Hsp' Ha Hb E).
  - destruct (Hno' l a Hl Et).
  - destruct (Hno l' b Hl' Et').
  - reflexivity.
Qed.

(** ** A segment holds no newline *)










(** C5: the sanitizer applies six steps, each to the result of the one
    before, in this order: it removes the tags ('<', one or more characters
    other than '>', '>'), the curly-brace groups likewise, the speaker label
    ('Speaker ', digits, ':' and the whitespace after it) at the very start
    of the text and nowhere else, the square-bracket groups ('[', any
    characters of the line up to the first ']'), the parenthesis groups
    likewise, and it returns the words of the rest joined by single spaces,
    which is the whitespace collapsed and trimmed.  Each step is written
    here as its description ([group_cut], [label_cut], [words_of]), which
    has one result only.  '<i>Hello</i> world' gives 'Hello world' and
    'Speaker 1: Welcome back' gives 'Welcome back'; the further examples
    need every step and tell this order from the others. *)
Theorem sanitizer_steps_in_order ud text :
  (exists t1 t2 t3 t4 t5 ws,
     group_cut (ch "<") (ch ">") (not_char (ch ">")) 1 text t1
     /\ group_cut (ch "{") (ch "}") (not_char (ch "}")) 1 t1 t2
     /\ label_cut ud t2 t3
     /\ group_cut (ch "[") (ch "]") (in_line_but (ch "]")) 0 t3 t4
     /\ group_cut (ch "(") (ch ")") (in_line_but (ch ")")) 0 t4 t5
     /\ words_of t5 ws
     /\ clean_subtitle_text ud text = join [SP] ws)
  /\ clean_subtitle_text ud (py "<i>Hello</i> world") = py "Hello world"
  /\ clean_subtitle_text ud (py "Speaker 1: Welcome back") = py "Welcome back"
  /\ clean_subtitle_text ud (py "Speaker 12:Welcome back") = py "Welcome back"
  /\ clean_subtitle_text ud (py "Hello Speaker 1: you") = py "Hello Speaker 1: you"
  /\ clean_subtitle_text ud (py " Speaker 1: you") = py "Speaker 1: you"
  /\ clean_subtitle_text ud (py "Hello {\an8}(laughs) world") = py "Hello world"
  /\ clean_subtitle_text ud (py "<{>x}") = py "x}"
  /\ clean_subtitle_text ud (py "<i>Speaker 1: hi</i>") = py "hi"
  /\ clean_subtitle_text ud (py "{\an8}Speaker 2: hi") = py "hi"
  /\ clean_subtitle_text ud (py "[x]Speaker 1: hi") = py "Speaker 1: hi"
  /\ clean_subtitle_text ud (py "(x)Speaker 1: hi") = py "Speaker 1: hi"
  /\ clean_subtitle_text ud (py "(a [b) c]") = py "(a"
  /\ clean_subtitle_text ud (py "[a (b] c)") = py "c)"
  /\ clean_subtitle_text ud (py "a [x] b") = py "a b".
Proof.
  split; [|repeat split; vm_compute; reflexivity].
  exists (re_sub tag [] text), (re_sub brace [] (re_sub tag [] text)).
  set (t2 := re_sub brace [] (re_sub tag [] text)).
  exists (re_sub (speaker_label ud) [] t2).
  set (t3 := re_sub (speaker_label ud) [] t2).
  exists (re_sub square [] t3), (re_sub paren [] (re_sub square [] t3)),
    (split_ws (re_sub paren [] (re_sub square [] t3))).
  split; [rewrite re_sub_sub_at; apply sub_group_plus|].
  split; [unfold t2; rewrite (re_sub_sub_at brace); apply sub_group_plus|].
  split; [apply sub_speaker_label|].
  split; [apply sub_group_lazy|].
  split; [apply sub_group_lazy|].
  split; [apply split_ws_words_of|].
  unfold clean_subtitle_text. cbv zeta. fold t2. fold t3. apply normalize_words.
Qed.
